(** * sunpy.net.dataretriever.client: a shallow embedding

    The module [sunpy/net/dataretriever/client.py] defines the response
    containers [QueryResponseBlock] and [QueryResponse] and the base class
    [GenericClient] with its methods [_makeargs], [_get_full_filenames],
    [search] and [fetch].  Python objects become Rocq data, the dictionary
    [self.map_] becomes a [gmap string Value] threaded through a state and
    exception monad, and raised exceptions become values of [Exc]. *)

From Stdlib Require Import ZArith Ascii String.
From stdpp Require Import gmap strings list fin_maps.

Local Open Scope Z_scope.
Set Warnings "-clear-no-such-hyp".

(** ** Python exceptions and results *)

Inductive Exc : Type :=
| ValueError (msg : string)
| TypeError (msg : string)
| KeyError (key : string)
| IndexError (msg : string)
| AttributeError (msg : string)
| UnboundLocalError (var : string)
| NotImplementedError.

Inductive result (A : Type) : Type :=
| Ok (a : A)
| Raise (e : Exc).
Arguments Ok {A} a.
Arguments Raise {A} e.

#[global] Instance result_ret : MRet result := fun _ a => Ok a.
#[global] Instance result_bind : MBind result := fun _ _ f r =>
  match r with
  | Ok a => f a
  | Raise e => Raise e
  end.

#[global] Instance result_fmap : FMap result := fun _ _ f r =>
  match r with
  | Ok a => Ok (f a)
  | Raise e => Raise e
  end.

(** ** Values held by the [map_] dictionary *)

(** Attribute payloads compared with [==] in [_makeargs]: strings and
    numbers (a quantity is abstracted to an exact number). *)
Inductive Scalar : Type :=
| SStr (s : string)
| SNum (n : Z).

(** Modelled from the spec: [sunpy.time.TimeRange] is imported, not defined,
    by the module; it is taken as the spec's time interval, a pair of a
    start and an end instant.  Instants ([datetime] objects) are totally
    ordered and are represented by integer time stamps. *)
Record TimeRange : Type := mkTimeRange { start : Z; end_ : Z }.

Inductive Value : Type :=
| VScalar (x : Scalar)
| VTime (t : Z)
| VTimeRange (tr : TimeRange)
| VNamedTuple (typename : string) (fields : list string) (vals : list Scalar)
| VNaN.

#[global] Instance Scalar_eq_dec : EqDecision Scalar.
Proof. solve_decision. Defined.
#[global] Instance TimeRange_eq_dec : EqDecision TimeRange.
Proof. solve_decision. Defined.
#[global] Instance Value_eq_dec : EqDecision Value.
Proof. solve_decision. Defined.

Abbreviation Map := (gmap string Value).

(** ** The state of a client: [self.map_], which survives a raised exception *)

Definition M (A : Type) : Type := Map -> Map * result A.

#[global] Instance M_ret : MRet M := fun _ a m => (m, Ok a).
#[global] Instance M_bind : MBind M := fun _ _ f c m =>
  match c m with
  | (m', Ok a) => f a m'
  | (m', Raise e) => (m', Raise e)
  end.

Definition raise {A : Type} (e : Exc) : M A := fun m => (m, Raise e).
Definition lift {A : Type} (r : result A) : M A := fun m => (m, r).
Definition get_map_ : M Map := fun m => (m, Ok m).
(** [self.map_[key] = v] *)
Definition setitem (key : string) (v : Value) : M unit :=
  fun m => (<[key := v]> m, Ok tt).

(** ** Strings *)

(** [str.lower] on ASCII letters. *)
Definition lower_ascii (c : ascii) : ascii :=
  let n := nat_of_ascii c in
  if (Nat.leb 65 n && Nat.leb n 90)%bool then ascii_of_nat (n + 32) else c.

Fixpoint lower (s : string) : string :=
  match s with
  | EmptyString => EmptyString
  | String c r => String (lower_ascii c) (lower r)
  end.

(** [s.replace(',', ' ').split()], the way [namedtuple] reads its field
    names: [cur] is the word being read, kept reversed. *)
Definition flush_word (cur : list ascii) (acc : list string) : list string :=
  match cur with
  | [] => acc
  | _ => acc ++ [string_of_list_ascii (rev cur)]
  end.

Fixpoint split_fields (s : string) (cur : list ascii) (acc : list string)
  : list string :=
  match s with
  | EmptyString => flush_word cur acc
  | String c r =>
      if (Ascii.eqb c " " || Ascii.eqb c ",")%bool
      then split_fields r [] (flush_word cur acc)
      else split_fields r (c :: cur) acc
  end.

(** [namedtuple(typename, field_names)]: the class is its name and its list
    of field names; calling it with two positional values builds the tuple. *)
Definition namedtuple (typename field_names : string) : string * list string :=
  (typename, split_fields field_names [] []).

Definition call_namedtuple (cls : string * list string) (vals : list Scalar)
  : Value :=
  VNamedTuple (fst cls) (snd cls) vals.

(** ** Query attributes

    [sunpy.net.vso.attrs] is imported by the module.  [_makeargs] looks at an
    attribute only through [isinstance], [hasattr], its class name and the
    fields [start]/[end], [min]/[max] and [value]; an attribute is modelled
    by the branch of that dispatch it takes.  [cls] is
    [elem.__class__.__name__]. *)
Inductive Attr : Type :=
| ATime (cls : string) (start end_ : Z)            (* isinstance(elem, Time) *)
| AWavelength (cls : string) (min max : Scalar)    (* a _Range that is a Wavelength *)
| ARange (cls : string) (min max : Scalar)         (* any other _Range *)
| AValue (cls : string) (value : Value)            (* hasattr(elem, 'value') *)
| AOther (cls : string).                           (* none of the above *)

Definition class_name (elem : Attr) : string :=
  match elem with
  | ATime c _ _ | AWavelength c _ _ | ARange c _ _ | AValue c _ | AOther c => c
  end.

Definition is_wavelength (elem : Attr) : bool :=
  match elem with AWavelength _ _ _ => true | _ => false end.

(** ** GenericClient._makeargs *)

Definition unsupported_msg (cls : string) : string :=
  "GenericClient can not add " +:+ cls +:+
  " to the map_ dictionary to pass to the Client.".

(** The range branch, lines 158-169. *)
Definition makeargs_range (elem : Attr) (a_min a_max : Scalar) : M unit :=
  if decide (a_min = a_max)
  then setitem (lower (class_name elem)) (VScalar a_min)
  else
    let prefix := if is_wavelength elem then "wave"%string else ""%string in
    let minmax := namedtuple "minmax" (prefix +:+ "min " +:+ prefix +:+ "max") in
    setitem (lower (class_name elem)) (call_namedtuple minmax [a_min; a_max]).

(** The body of the loop over [args]. *)
Definition makeargs_elem (elem : Attr) : M unit :=
  match elem with
  | ATime _ s e =>
      setitem "TimeRange" (VTimeRange (mkTimeRange s e)) ≫= fun _ =>
      setitem "Time_start" (VTime s) ≫= fun _ =>
      setitem "Time_end" (VTime e)
  | AWavelength _ a_min a_max | ARange _ a_min a_max =>
      makeargs_range elem a_min a_max
  | AValue c v => setitem (lower c) v
  | AOther c => raise (ValueError (unsupported_msg c))
  end.

Fixpoint makeargs_loop (args : list Attr) : M unit :=
  match args with
  | [] => mret tt
  | elem :: rest => makeargs_elem elem ≫= fun _ => makeargs_loop rest
  end.

(** ** QueryResponseBlock and QueryResponse *)

(** Modelled from the spec: the call [TimeRange(a, b)] of the imported
    [sunpy.time.TimeRange] on two dictionary entries.  Two instants give the
    interval between them; a missing entry ([None]) or a value that is not
    an instant makes the constructor raise. *)
Definition TimeRange_call (a b : option Value) : result TimeRange :=
  match a, b with
  | Some (VTime s), Some (VTime e) => Ok (mkTimeRange s e)
  | _, _ => Raise (TypeError "TimeRange: arguments are not times")
  end.

Record QueryResponseBlock : Type := mkBlock {
  _map : Map;
  source : Value;
  provider : Value;
  physobs : Value;
  instrument : Value;
  url : string;
  time : TimeRange;
  wave : Value
}.

Definition not_available : Value := VScalar (SStr "Data not Available").

(** [map0.get(key, default)] *)
Definition get_default (map0 : Map) (key : string) (d : Value) : Value :=
  default d (map0 !! key).

(** [QueryResponseBlock.__init__(self, map0, url, time=None)].  The block
    keeps the dictionary it is given; the embedding stores its contents at
    construction time. *)
Definition QueryResponseBlock_init (map0 : Map) (aurl : string)
    (t : option TimeRange) : result QueryResponseBlock :=
  tr ← match t with
       | None => TimeRange_call (map0 !! "Time_start") (map0 !! "Time_end")
       | Some t => Ok t
       end;
  Ok {| _map := map0;
        source := get_default map0 "source" not_available;
        provider := get_default map0 "provider" not_available;
        physobs := get_default map0 "physobs" not_available;
        instrument := get_default map0 "instrument" not_available;
        url := aurl;
        time := tr;
        wave := get_default map0 "wavelength" VNaN |}.

(** [iter_urls(amap, url_list, time)], consumed by the list constructor:
    the blocks in order, or the first exception. *)
Fixpoint iter_urls (amap : Map) (pairs : list (string * option TimeRange))
  : result (list QueryResponseBlock) :=
  match pairs with
  | [] => Ok []
  | (aurl, t) :: rest =>
      tmp ← QueryResponseBlock_init amap aurl t;
      blocks ← iter_urls amap rest;
      Ok (tmp :: blocks)
  end.

(** [QueryResponse.create(amap, lst, time=None)] *)
Definition create (amap : Map) (lst : list string)
    (time : option (list (option TimeRange)))
  : result (list QueryResponseBlock) :=
  let time := match time with
              | None => replicate (length lst) None
              | Some ts => ts
              end in
  iter_urls amap (zip lst time).

(** Python's [min] and [max] of an iterable: error on the empty iterable,
    otherwise the first smallest (largest) item in iteration order. *)
Definition py_min (l : list Z) : result Z :=
  match l with
  | [] => Raise (ValueError "min() arg is an empty sequence")
  | x :: xs => Ok (foldl (fun acc y => if y <? acc then y else acc) x xs)
  end.

Definition py_max (l : list Z) : result Z :=
  match l with
  | [] => Raise (ValueError "max() arg is an empty sequence")
  | x :: xs => Ok (foldl (fun acc y => if y >? acc then y else acc) x xs)
  end.

(** [QueryResponse.time_range(self)] *)
Definition time_range (self : list QueryResponseBlock) : result TimeRange :=
  t0 ← py_min ((fun qrblock => start (time qrblock)) <$> self);
  t1 ← py_max ((fun qrblock => end_ (time qrblock)) <$> self);
  Ok (mkTimeRange t0 t1).

(** ** GenericClient: the overridable methods and [search] *)

(** What [_get_time_for_url] returns: the [NotImplemented] singleton, or a
    list with one time range per URL. *)
Inductive TimesResult : Type :=
| NotImplemented
| Times (ts : list TimeRange).

(** The methods a concrete client overrides. *)
Record ClientClass : Type := {
  _makeimap : M unit;
  _get_url_for_timerange : option Value -> Map -> result (list string);
  _get_time_for_url : list string -> M TimesResult
}.

(** The methods as [GenericClient] itself defines them. *)
Definition GenericClient : ClientClass := {|
  _makeimap := raise NotImplementedError;
  _get_url_for_timerange := fun _ _ => Raise NotImplementedError;
  _get_time_for_url := fun _ => mret NotImplemented
|}.


(** [GenericClient._makeargs(self, *args)] *)
Definition _makeargs (cls : ClientClass) (args : list Attr) : M unit :=
  makeargs_loop args ≫= fun _ => _makeimap cls.

(** The first lines of [search]: the call
    [GenericClient._makeargs(self, *args, **kwargs)], which accepts no
    keyword, then [kwergs = copy.copy(self.map_); kwergs.update(kwargs)].
    Returns [kwergs], the dictionary handed to [_get_url_for_timerange]. *)
Definition search_kwergs (cls : ClientClass) (args : list Attr) (kwargs : Map)
  : M Map :=
  (if decide (kwargs = ∅) then _makeargs cls args
   else raise (TypeError "_makeargs() got an unexpected keyword argument"))
  ≫= fun _ =>
  map_ ← get_map_;
  mret (kwargs ∪ map_).

(** [GenericClient.search(self, *args, **kwargs)] *)
Definition search (cls : ClientClass) (args : list Attr) (kwargs : Map)
  : M (list QueryResponseBlock) :=
  kwergs ← search_kwergs cls args kwargs;
  map_ ← get_map_;
  urls ← lift (_get_url_for_timerange cls (map_ !! "TimeRange") kwergs);
  let fallback : M (list QueryResponseBlock) :=
    map_ ← get_map_; lift (create map_ urls None) in
  match urls with
  | [] => fallback
  | _ :: _ =>
      times ← _get_time_for_url cls urls;
      match times with
      | Times ((_ :: _) as ts) =>
          map_ ← get_map_; lift (create map_ urls (Some (Some <$> ts)))
      | _ => fallback
      end
  end.

(** ** Paths and templates *)

(** What the module reads from its surroundings: the configuration, the
    file system, the imported [sunpy.util.replacement_filename], and the
    parts of Python's string formatting that depend on the value printed. *)
Record Env : Type := {
  download_dir : string;                      (* sunpy.config.get("downloads", "download_dir") *)
  expanduser : string -> string;              (* os.path.expanduser *)
  path_exists : string -> bool;               (* os.path.exists *)
  replacement_filename : string -> string;    (* sunpy.util.replacement_filename *)
  absolute : string -> string;                (* str(pathlib.Path(p).absolute()) *)
  py_str : Value -> string;                   (* format(v, '') *)
  format_field : Map -> string -> result string
    (* a replacement field with an attribute, an index, a conversion or a
       format spec, given the keyword arguments and the text of the field *)
}.

(** [needle in hay] on strings *)
Fixpoint contains (needle hay : string) : bool :=
  if String.prefix needle hay then true
  else match hay with
       | EmptyString => false
       | String _ r => contains needle r
       end.

Fixpoint endswith_sep (s : string) : bool :=
  match s with
  | EmptyString => false
  | String c EmptyString => Ascii.eqb c "/"
  | String _ r => endswith_sep r
  end.

(** [os.path.join(a, b)] of [posixpath] *)
Definition path_join (a b : string) : string :=
  if String.prefix "/" b then b
  else if (String.eqb a "" || endswith_sep a)%bool then a +:+ b
  else a +:+ "/" +:+ b.

(** [url.split('/')[-1]]: the text after the last slash; [cur] is kept
    reversed. *)
Fixpoint last_segment (s : string) (cur : list ascii) : string :=
  match s with
  | EmptyString => string_of_list_ascii (rev cur)
  | String c r =>
      if Ascii.eqb c "/" then last_segment r [] else last_segment r (c :: cur)
  end.

(** *** [str.format] with keyword arguments only

    The template is read left to right, as Python does: text is copied,
    doubled braces give one brace, and each replacement field is looked up
    when its closing brace is met, so that an error in the template that
    comes after a missing field is never reached. *)
Inductive Mode : Type :=
| Text                                        (* outside any field *)
| Opened                                      (* just read an opening brace *)
| InField (depth : nat) (cur : list ascii)    (* inside a field, text reversed *)
| Closed.                                     (* just read a closing brace in text *)

Definition is_digit (c : ascii) : bool :=
  let n := nat_of_ascii c in (Nat.leb 48 n && Nat.leb n 57)%bool.

Definition is_field_punct (c : ascii) : bool :=
  (Ascii.eqb c "." || Ascii.eqb c "[" || Ascii.eqb c "!" || Ascii.eqb c ":"
   || Ascii.eqb c "{" || Ascii.eqb c "}")%bool.

(** One replacement field, with no positional argument to draw from. *)
Definition render_field (env : Env) (kwargs : Map) (field : list ascii)
  : result string :=
  if existsb is_field_punct field
  then format_field env kwargs (string_of_list_ascii field)
  else if forallb is_digit field
  then Raise (IndexError "Replacement index out of range for positional args tuple")
  else match kwargs !! string_of_list_ascii field with
       | Some v => Ok (py_str env v)
       | None => Raise (KeyError (string_of_list_ascii field))
       end.

Definition single_open : Exc := ValueError "Single '{' encountered in format string".
Definition single_close : Exc := ValueError "Single '}' encountered in format string".
Definition expected_close : Exc := ValueError "expected '}' before end of string".

Fixpoint format_from (env : Env) (kwargs : Map) (mode : Mode) (s : string)
  : result string :=
  match s with
  | EmptyString =>
      match mode with
      | Text => Ok EmptyString
      | Opened => Raise single_open
      | InField _ _ => Raise expected_close
      | Closed => Raise single_close
      end
  | String c r =>
      match mode with
      | Text =>
          if Ascii.eqb c "{" then format_from env kwargs Opened r
          else if Ascii.eqb c "}" then format_from env kwargs Closed r
          else String c <$> format_from env kwargs Text r
      | Opened =>
          if Ascii.eqb c "{" then String c <$> format_from env kwargs Text r
          else if Ascii.eqb c "}" then
            out ← render_field env kwargs [];
            (fun rest => out +:+ rest) <$> format_from env kwargs Text r
          else format_from env kwargs (InField 0 [c]) r
      | InField depth cur =>
          if Ascii.eqb c "{" then format_from env kwargs (InField (S depth) (c :: cur)) r
          else if Ascii.eqb c "}" then
            match depth with
            | O =>
                out ← render_field env kwargs (rev cur);
                (fun rest => out +:+ rest) <$> format_from env kwargs Text r
            | S d => format_from env kwargs (InField d (c :: cur)) r
            end
          else format_from env kwargs (InField depth (c :: cur)) r
      | Closed =>
          if Ascii.eqb c "}" then String c <$> format_from env kwargs Text r
          else Raise single_close
      end
  end.

Definition format (env : Env) (template : string) (kwargs : Map) : result string :=
  format_from env kwargs Text template.

(** ** simple_path and GenericClient._get_full_filenames *)


(** The objects the local variable [fname] holds in turn: nothing before its
    first assignment, a string, and [partial(simple_path, fname)]. *)
Inductive PyObj : Type :=
| Unbound
| PStr (s : string)
| PPartial (path : string).


(** The [path] argument of [fetch] and [_get_full_filenames] by its type. *)
Inductive PathArg : Type :=
| PathNone
| PathStr (s : string)
| PathLib (p : string)                (* a pathlib.Path, by its string form *)
| PathOther (type_name : string).     (* an object of any other type *)

(** One turn of the loop of [_get_full_filenames], lines 244-257: from the
    value [fname] has on entry to the object appended to [paths], which is
    also the value [fname] has on exit. *)
Definition full_filenames_step (env : Env) (qres : list QueryResponseBlock)
    (path : PathArg) (i : nat) (filename : string) (fname : PyObj)
  : result PyObj :=
  let fname :=
    match path with
    | PathNone => PStr (path_join (download_dir env) "{file}")
    | PathStr p =>
        if negb (contains "{file}" p) then PStr (path_join p "{file}") else fname
    | PathLib _ | PathOther _ => fname
    end in
  qrblock ← match qres !! i with
            | Some b => Ok b
            | None => Raise (IndexError "list index out of range")
            end;
  let temp_dict := <["file" := VScalar (SStr filename)]> (_map qrblock) in
  fname ← match fname with
          | PStr template => format env template temp_dict
          | Unbound => Raise (UnboundLocalError "fname")
          | PPartial _ =>
              Raise (AttributeError "'functools.partial' object has no attribute 'format'")
          end;
  let fname := expanduser env fname in
  let fname := if path_exists env fname then replacement_filename env fname
               else fname in
  Ok (PPartial fname).

Fixpoint full_filenames_loop (env : Env) (qres : list QueryResponseBlock)
    (path : PathArg) (i : nat) (filenames : list string) (fname : PyObj)
    (paths : list PyObj) : result (list PyObj) :=
  match filenames with
  | [] => Ok paths
  | filename :: rest =>
      fname ← full_filenames_step env qres path i filename fname;
      full_filenames_loop env qres path (S i) rest fname (paths ++ [fname])
  end.

(** [GenericClient._get_full_filenames(self, qres, filenames, path)] *)
Definition _get_full_filenames (env : Env) (qres : list QueryResponseBlock)
    (filenames : list string) (path : PathArg) : result (list PyObj) :=
  full_filenames_loop env qres path 0 filenames Unbound [].

(** ** GenericClient.fetch *)

(** What [fetch] does to the imported [sunpy.net.download.Downloader], in
    order: its construction and each call of its [download] method. *)
Inductive Event (C : Type) : Type :=
| NewDownloader (max_conn max_total : nat)
| Download (aurl : string) (fname : PyObj) (ncall : list string)
    (error_callback : option C).
Arguments NewDownloader {C} max_conn max_total.
Arguments Download {C} aurl fname ncall error_callback.

(** The imported [Results] object, by the key lists passed to its
    [require] method. *)
Record Results : Type := { required : list (list string) }.

(** Computations of [fetch]: the events so far, and a value or an
    exception. *)
Definition W (C A : Type) : Type := list (Event C) * result A.

#[global] Instance W_ret {C} : MRet (W C) := fun _ a => ([], Ok a).
#[global] Instance W_bind {C} : MBind (W C) := fun _ _ f c =>
  match c with
  | (log, Ok a) => let '(log', r) := f a in (log ++ log', r)
  | (log, Raise e) => (log, Raise e)
  end.

Definition tell {C} (ev : Event C) : W C unit := ([ev], Ok tt).
Definition liftW {C A} (r : result A) : W C A := ([], r).

Definition path_type_error (type_name : string) : Exc :=
  TypeError ("path should be either 'pathlib.Path' or 'str'. Got '"
             +:+ type_name +:+ "'.").

(** Lines 312-319: the check of the type of [path]. *)
Definition check_path (env : Env) (path : PathArg) : result PathArg :=
  match path with
  | PathNone => Ok PathNone
  | PathLib p => Ok (PathStr (absolute env p))
  | PathStr s => Ok (PathStr s)
  | PathOther type_name => Raise (path_type_error type_name)
  end.

Fixpoint download_all {C} (tasks : list (string * list string * PyObj))
    (error_callback : option C) : W C unit :=
  match tasks with
  | [] => mret tt
  | (aurl, ncall, fname) :: rest =>
      tell (Download aurl fname ncall error_callback) ≫= fun _ =>
      download_all rest error_callback
  end.

(** [GenericClient.fetch(self, qres, path=None, error_callback=None)] *)
Definition fetch {C} (env : Env) (qres : list QueryResponseBlock)
    (path : PathArg) (error_callback : option C) : W C Results :=
  path ← liftW (check_path env path);
  let urls := url <$> qres in
  let filenames := (fun url => last_segment url []) <$> urls in
  paths ← liftW (_get_full_filenames env qres filenames path);
  let res := {| required := (fun x => [x]) <$> urls |} in
  tell (NewDownloader (length urls) (length urls)) ≫= fun _ =>
  download_all (zip (zip urls ((fun x => [x]) <$> urls)) paths) error_callback
  ≫= fun _ =>
  mret res.

(** ** QueryResponse.response_block_properties *)

(** [a if not a.startswith('_') else None] *)
Definition public_name (a : string) : option string :=
  if String.prefix "_" a then None else Some a.

(** The set comprehension over [dir(resp)]. *)
Definition public_names (names : list string) : gset (option string) :=
  list_to_set (public_name <$> names).

(** [QueryResponse.response_block_properties(self)].  [dir] is Python's
    builtin of that name: the attribute names of an object.  The set that is
    returned is the one that held [None], with [None] removed. *)
Definition response_block_properties (dir : QueryResponseBlock -> list string)
    (self : list QueryResponseBlock) : result (gset (option string)) :=
  match self with
  | [] => Raise (IndexError "list index out of range")
  | first :: others =>
      let s := foldl (fun s resp => s ∩ public_names (dir resp))
                 (public_names (dir first)) others in
      if decide (None ∈ s) then Ok (s ∖ {[None]})
      else Raise (KeyError "None")
  end.

(** ** GenericClient._link *)

(** [d[k]] on a dictionary kept as its items in insertion order. *)
Fixpoint getitem {V : Type} (k : string) (d : list (string * V)) : option V :=
  match d with
  | [] => None
  | (k', v) :: rest => if decide (k' = k) then Some v else getitem k rest
  end.

Fixpoint link_loop (map_ items : list (string * gmap string string))
    (paths : list string) : result (list string) :=
  match items with
  | [] => Ok paths
  | (k, v) :: rest =>
      entry ← match getitem k map_ with
              | Some entry => Ok entry
              | None => Raise (KeyError k)
              end;
      path ← match entry !! "path" with
             | Some path => Ok path
             | None => Raise (KeyError "path")
             end;
      link_loop map_ rest (paths ++ [path])
  end.

(** [GenericClient._link(self, map_)] *)
Definition _link (map_ : list (string * gmap string string))
  : result (list string) :=
  link_loop map_ map_ [].

(** ** Vocabulary of the statements *)

(** The keys one attribute writes into [map_]. *)
Definition elem_keys (elem : Attr) : gset string :=
  match elem with
  | ATime _ _ _ => {[ "TimeRange"; "Time_start"; "Time_end" ]}
  | AWavelength c _ _ | ARange c _ _ | AValue c _ => {[ lower c ]}
  | AOther _ => ∅
  end.

Definition args_keys (args : list Attr) : gset string :=
  ⋃ (elem_keys <$> args).

Definition is_other (elem : Attr) : bool :=
  match elem with AOther _ => true | _ => false end.

Definition is_brace (c : ascii) : bool :=
  (Ascii.eqb c "{" || Ascii.eqb c "}")%bool.

(** ** Sample data

    A client class that overrides [_makeimap] and [_get_url_for_timerange]
    and inherits [_get_time_for_url], surroundings in which no file exists
    yet, and response blocks. *)
Definition SampleClient : ClientClass := {|
  _makeimap := setitem "source" (VScalar (SStr "sdo"));
  _get_url_for_timerange := fun _ _ =>
    Ok ["http://example.org/data/a.fits"; "http://example.org/data/b.fits"];
  _get_time_for_url := _get_time_for_url GenericClient
|}.


Definition sample_env : Env := {|
  download_dir := "/home/user/sunpy/data";
  expanduser := fun s => s;
  path_exists := fun _ => false;
  replacement_filename := fun s => s +:+ ".0";
  absolute := fun p => "/home/user/" +:+ p;
  py_str := fun v => match v with VScalar (SStr s) => s | _ => "?" end;
  format_field := fun _ _ => Raise (ValueError "Invalid format specifier")
|}.

Definition sample_map : Map :=
  <["source" := VScalar (SStr "sdo")]>
    (<["Time_end" := VTime 9]>
       (<["Time_start" := VTime 3]>
          (<["TimeRange" := VTimeRange (mkTimeRange 3 9)]> ∅))).

Definition block_a : QueryResponseBlock := {|
  _map := sample_map;
  source := VScalar (SStr "sdo");
  provider := not_available;
  physobs := not_available;
  instrument := not_available;
  url := "http://example.org/data/a.fits";
  time := mkTimeRange 3 9;
  wave := VNaN
|}.

Definition block_b : QueryResponseBlock := {|
  _map := sample_map;
  source := VScalar (SStr "sdo");
  provider := not_available;
  physobs := not_available;
  instrument := not_available;
  url := "http://example.org/data/b.fits";
  time := mkTimeRange 3 9;
  wave := VNaN
|}.

(** A block with a time range of its own, as a client with per-URL times
    builds it. *)
Definition block_c : QueryResponseBlock := {|
  _map := sample_map;
  source := VScalar (SStr "sdo");
  provider := not_available;
  physobs := not_available;
  instrument := not_available;
  url := "http://example.org/data/c.fits";
  time := mkTimeRange 1 5;
  wave := VNaN
|}.



(** ** Further vocabulary and sample data *)

Definition is_time (elem : Attr) : bool :=
  match elem with ATime _ _ _ => true | _ => false end.

(** A client class that never finds a URL. *)
Definition EmptyClient : ClientClass := {|
  _makeimap := mret tt;
  _get_url_for_timerange := fun _ _ => Ok [];
  _get_time_for_url := _get_time_for_url GenericClient
|}.

(** Where a file goes once its template is filled in, lines 252-255: the
    home directory is expanded and a path that is taken is renamed. *)
Definition destination (env : Env) (fname : string) : string :=
  let fname := expanduser env fname in
  if path_exists env fname then replacement_filename env fname else fname.

(** Surroundings in which the file /data/a.fits exists already. *)
Definition busy_env : Env := {|
  download_dir := "/data";
  expanduser := fun s => s;
  path_exists := fun s => String.eqb s "/data/a.fits";
  replacement_filename := fun s => s +:+ ".0";
  absolute := fun p => "/home/user/" +:+ p;
  py_str := fun v => match v with VScalar (SStr s) => s | _ => "?" end;
  format_field := fun _ _ => Raise (ValueError "Invalid format specifier")
|}.

(** The dictionary of a results object after two downloads. *)
Definition sample_results : list (string * gmap string string) :=
  [("http://example.org/data/a.fits", {["path" := "/data/a.fits"]});
   ("http://example.org/data/b.fits", {["path" := "/data/b.fits"]})].

Definition second_time_map : Map :=
  <["Time_end" := VTime 20]>
    (<["Time_start" := VTime 10]>
       (<["TimeRange" := VTimeRange (mkTimeRange 10 20)]> ∅)).

(** ** Laws of the monads *)

Lemma M_bind_unfold {A B : Type} (c : M A) (f : A -> M B) (m : Map) :
  (c ≫= f) m = match c m with
               | (m', Ok a) => f a m'
               | (m', Raise e) => (m', Raise e)
               end.
Proof. reflexivity. Qed.

(** ** _makeargs *)

Lemma makeargs_loop_cons (elem : Attr) (rest : list Attr) (m : Map) :
  makeargs_loop (elem :: rest) m =
  match makeargs_elem elem m with
  | (m', Ok _) => makeargs_loop rest m'
  | (m', Raise e) => (m', Raise e)
  end.
Proof. reflexivity. Qed.

(** A prefix of the arguments that is processed without an exception leaves
    the loop in the state it reached. *)
Lemma makeargs_loop_app (pre post : list Attr) (m0 m1 : Map) :
  makeargs_loop pre m0 = (m1, Ok tt) ->
  makeargs_loop (pre ++ post) m0 = makeargs_loop post m1.
Proof.
  revert m0. induction pre as [|elem pre IH]; intros m0 Hpre.
  - injection Hpre as ->. reflexivity.
  - rewrite <- app_comm_cons, makeargs_loop_cons.
    rewrite makeargs_loop_cons in Hpre.
    destruct (makeargs_elem elem m0) as [m' [[]|e]]; [auto | discriminate].
Qed.

Lemma makeargs_range_eq (elem : Attr) (a_min a_max : Scalar) (m : Map) :
  makeargs_range elem a_min a_max m =
  (<[lower (class_name elem) :=
       if decide (a_min = a_max) then VScalar a_min
       else VNamedTuple "minmax"
              (if is_wavelength elem then ["wavemin"; "wavemax"]
               else ["min"; "max"])
              [a_min; a_max]]> m, Ok tt).
Proof.
  unfold makeargs_range. destruct (decide (a_min = a_max)); [reflexivity|].
  destruct (is_wavelength elem); reflexivity.
Qed.

(** C1: wherever a closed-range constraint stands in the argument sequence
    of [_makeargs], once the constraints before it are processed its turn of
    the loop writes exactly one entry, under the lower-cased class name: the
    scalar [min] when [min == max], and otherwise the [minmax] record whose
    two fields are named [prefix ++ "min"] and [prefix ++ "max"], with
    prefix "wave" for a wavelength range and the empty prefix for any other
    range; the loop then goes on with the remaining constraints. *)
Theorem makeargs_range_stored (pre post : list Attr) (wavelength : bool)
    (c : string) (a_min a_max : Scalar) (m0 m1 : Map) :
  makeargs_loop pre m0 = (m1, Ok tt) ->
  let elem := if wavelength then AWavelength c a_min a_max
              else ARange c a_min a_max in
  let prefix := if wavelength then "wave" else "" in
  let stored := if decide (a_min = a_max) then VScalar a_min
                else VNamedTuple "minmax"
                       [prefix +:+ "min"; prefix +:+ "max"] [a_min; a_max] in
  makeargs_elem elem m1 = (<[lower c := stored]> m1, Ok tt)
  ∧ makeargs_loop (pre ++ elem :: post) m0
    = makeargs_loop post (<[lower c := stored]> m1).
Proof.
  intros Hpre elem prefix stored.
  assert (Helem : makeargs_elem elem m1 = (<[lower c := stored]> m1, Ok tt)).
  { subst elem prefix stored.
    destruct wavelength; simpl; rewrite makeargs_range_eq; reflexivity. }
  split; [exact Helem|].
  rewrite (makeargs_loop_app pre _ m0 m1 Hpre), makeargs_loop_cons, Helem.
  reflexivity.
Qed.

Lemma makeargs_range_stored_witness :
  makeargs_elem (AWavelength "Wavelength" (SNum 171) (SNum 193))
    (<["instrument" := VScalar (SStr "aia")]> ∅)
  = (<["wavelength" := VNamedTuple "minmax" ["wavemin"; "wavemax"]
                         [SNum 171; SNum 193]]>
       (<["instrument" := VScalar (SStr "aia")]> ∅), Ok tt)
  ∧ makeargs_loop
      ([AValue "Instrument" (VScalar (SStr "aia"))]
       ++ AWavelength "Wavelength" (SNum 171) (SNum 193) :: []) ∅
    = makeargs_loop []
        (<["wavelength" := VNamedTuple "minmax" ["wavemin"; "wavemax"]
                             [SNum 171; SNum 193]]>
           (<["instrument" := VScalar (SStr "aia")]> ∅)).
Proof.
  apply (makeargs_range_stored [AValue "Instrument" (VScalar (SStr "aia"))] []
           true "Wavelength" (SNum 171) (SNum 193) ∅).
  reflexivity.
Defined.

Lemma makeargs_elem_supported (elem : Attr) (m : Map) :
  is_other elem = false -> exists m', makeargs_elem elem m = (m', Ok tt).
Proof.
  destruct elem as [c s e|c lo hi|c lo hi|c v|c]; intros H; try discriminate;
    simpl; try rewrite makeargs_range_eq; eauto.
Qed.

Lemma makeargs_loop_supported (args : list Attr) (m : Map) :
  existsb is_other args = false -> snd (makeargs_loop args m) = Ok tt.
Proof.
  revert m. induction args as [|elem rest IH]; intros m H; [reflexivity|].
  simpl in H. apply orb_false_elim in H as [Helem Hrest].
  destruct (makeargs_elem_supported elem m Helem) as [m' Hm'].
  rewrite makeargs_loop_cons, Hm'. auto.
Qed.

Lemma makeargs_loop_unsupported (args : list Attr) (m : Map) :
  existsb is_other args = true ->
  exists c, AOther c ∈ args
            ∧ snd (makeargs_loop args m) = Raise (ValueError (unsupported_msg c)).
Proof.
  revert m. induction args as [|elem rest IH]; intros m H; [discriminate|].
  rewrite makeargs_loop_cons.
  destruct (is_other elem) eqn:Helem.
  - destruct elem; try discriminate. exists cls. split; [left|reflexivity].
  - simpl in H. rewrite Helem in H. simpl in H.
    destruct (makeargs_elem_supported elem m Helem) as [m' ->].
    destruct (IH m' H) as (c & Hin & Hr). exists c. split; [by right|done].
Qed.

Example makeargs_range_collapses :
  makeargs_elem (ARange "Level" (SNum 2) (SNum 2)) ∅
  = (<["level" := VScalar (SNum 2)]> ∅, Ok tt).
Proof. reflexivity. Qed.

Example makeargs_range_no_prefix :
  makeargs_elem (ARange "Level" (SNum 1) (SNum 2)) ∅
  = (<["level" := VNamedTuple "minmax" ["min"; "max"] [SNum 1; SNum 2]]> ∅,
     Ok tt).
Proof. reflexivity. Qed.

(** C5: [_makeargs] raises the [ValueError] of its last branch (the spec's
    UnsupportedConstraintKind), naming the class of an offending constraint,
    as soon as the sequence holds a constraint that is neither a time
    interval, nor a range, nor an object with a [value]; this happens before
    [_makeimap] is reached, so no client class can turn it into a silent
    drop.  When every constraint has one of the three shapes the loop ends
    without any exception. *)
Theorem makeargs_unsupported_hard_error (cls : ClientClass) (args : list Attr)
    (m : Map) :
  (existsb is_other args = true ->
   exists c, AOther c ∈ args
     ∧ snd (_makeargs cls args m) = Raise (ValueError (unsupported_msg c)))
  ∧ (existsb is_other args = false -> snd (makeargs_loop args m) = Ok tt).
Proof.
  split; [|apply makeargs_loop_supported].
  intros H. destruct (makeargs_loop_unsupported args m H) as (c & Hin & Hr).
  exists c. split; [done|].
  unfold _makeargs. rewrite M_bind_unfold.
  destruct (makeargs_loop args m) as [m' [[]|e]]; simpl in *; [discriminate|done].
Qed.

(** ** time_range *)

(** C3: on a response with no block, [time_range] raises: the [min] of the
    empty sequence of start times is a [ValueError] (the spec's
    EmptySetError). *)
Theorem time_range_empty :
  time_range [] = Raise (ValueError "min() arg is an empty sequence").
Proof. reflexivity. Qed.

Lemma foldl_min_spec (xs : list Z) (x : Z) :
  let r := foldl (fun acc y => if y <? acc then y else acc) x xs in
  r ∈ x :: xs ∧ ∀ y, y ∈ x :: xs -> r <= y.
Proof.
  revert x. induction xs as [|z xs IH]; intros x; simpl.
  - split; [left|]. intros y Hy. apply list_elem_of_singleton in Hy. lia.
  - destruct (IH (if z <? x then z else x)) as [Hin Hle]. split.
    + apply elem_of_cons in Hin as [->|Hin].
      * destruct (z <? x); [right; left | left].
      * right; by right.
    + intros y Hy.
      assert (Hm : (if z <? x then z else x) <= x ∧ (if z <? x then z else x) <= z)
        by (destruct (Z.ltb_spec z x); lia).
      apply elem_of_cons in Hy as [->|Hy].
      * etrans; [apply Hle; left | apply Hm].
      * apply elem_of_cons in Hy as [->|Hy].
        -- etrans; [apply Hle; left | apply Hm].
        -- apply Hle. by right.
Qed.

Lemma foldl_max_spec (xs : list Z) (x : Z) :
  let r := foldl (fun acc y => if y >? acc then y else acc) x xs in
  r ∈ x :: xs ∧ ∀ y, y ∈ x :: xs -> y <= r.
Proof.
  revert x. induction xs as [|z xs IH]; intros x; simpl.
  - split; [left|]. intros y Hy. apply list_elem_of_singleton in Hy. lia.
  - destruct (IH (if z >? x then z else x)) as [Hin Hle]. split.
    + apply elem_of_cons in Hin as [->|Hin].
      * destruct (z >? x); [right; left | left].
      * right; by right.
    + intros y Hy.
      assert (Hm : x <= (if z >? x then z else x) ∧ z <= (if z >? x then z else x))
        by (rewrite Z.gtb_ltb; destruct (Z.ltb_spec x z); lia).
      apply elem_of_cons in Hy as [->|Hy].
      * etrans; [apply Hm | apply Hle; left].
      * apply elem_of_cons in Hy as [->|Hy].
        -- etrans; [apply Hm | apply Hle; left].
        -- apply Hle. by right.
Qed.

(** C6: on a response with at least one block, [time_range] returns the
    interval from the least start time of the blocks to their greatest end
    time: both bounds are attained by some block and bound all of them. *)
Theorem time_range_min_max (self : list QueryResponseBlock) :
  self ≠ [] ->
  exists t0 t1,
    time_range self = Ok (mkTimeRange t0 t1)
    ∧ (exists b, b ∈ self ∧ start (time b) = t0)
    ∧ (∀ b, b ∈ self -> t0 <= start (time b))
    ∧ (exists b, b ∈ self ∧ end_ (time b) = t1)
    ∧ (∀ b, b ∈ self -> end_ (time b) <= t1).
Proof.
  destruct self as [|b0 rest]; [done|]. intros _.
  set (starts := (fun b => start (time b)) <$> rest).
  set (ends := (fun b => end_ (time b)) <$> rest).
  destruct (foldl_min_spec starts (start (time b0))) as [Hmin_in Hmin_le].
  destruct (foldl_max_spec ends (end_ (time b0))) as [Hmax_in Hmax_le].
  eexists _, _. split; [reflexivity|].
  change (start (time b0) :: starts)
    with ((fun b => start (time b)) <$> b0 :: rest) in *.
  change (end_ (time b0) :: ends)
    with ((fun b => end_ (time b)) <$> b0 :: rest) in *.
  repeat split.
  - apply list_elem_of_fmap in Hmin_in as (b & Hb & Hin). eauto.
  - intros b Hb. apply Hmin_le. apply list_elem_of_fmap. eauto.
  - apply list_elem_of_fmap in Hmax_in as (b & Hb & Hin). eauto.
  - intros b Hb. apply Hmax_le. apply list_elem_of_fmap. eauto.
Qed.

Lemma time_range_min_max_witness :
  exists t0 t1,
    time_range [block_a; block_c] = Ok (mkTimeRange t0 t1)
    ∧ (exists b, b ∈ [block_a; block_c] ∧ start (time b) = t0)
    ∧ (∀ b, b ∈ [block_a; block_c] -> t0 <= start (time b))
    ∧ (exists b, b ∈ [block_a; block_c] ∧ end_ (time b) = t1)
    ∧ (∀ b, b ∈ [block_a; block_c] -> end_ (time b) <= t1).
Proof. apply (time_range_min_max [block_a; block_c]). discriminate. Defined.

Example time_range_sample :
  time_range [block_a; block_c] = Ok (mkTimeRange 1 9).
Proof. reflexivity. Qed.

(** ** search *)

Lemma iter_urls_blocks (amap : Map) (pairs : list (string * option TimeRange))
    (qr : list QueryResponseBlock) :
  iter_urls amap pairs = Ok qr ->
  ∀ b, b ∈ qr ->
    exists aurl t, (aurl, t) ∈ pairs ∧ QueryResponseBlock_init amap aurl t = Ok b.
Proof.
  revert qr. induction pairs as [|[aurl t] rest IH]; intros qr H b Hb; simpl in H.
  - injection H as <-. by apply elem_of_nil in Hb.
  - destruct (QueryResponseBlock_init amap aurl t) as [tmp|e] eqn:Hinit;
      [|discriminate].
    simpl in H. destruct (iter_urls amap rest) as [blocks|e]; [|discriminate].
    simpl in H. injection H as <-.
    apply elem_of_cons in Hb as [->|Hb].
    + exists aurl, t. split; [left|done].
    + destruct (IH blocks eq_refl b Hb) as (u & t' & Hin & Hu).
      exists u, t'. split; [by right|done].
Qed.

Lemma zip_replicate_None (lst : list string) (n : nat) (aurl : string)
    (t : option TimeRange) :
  (aurl, t) ∈ zip lst (replicate n None) -> t = None.
Proof.
  intros H. apply elem_of_zip_r in H. by apply elem_of_replicate in H as [-> _].
Qed.

(** Without per-URL times every block takes the interval between the
    [Time_start] and [Time_end] entries of the dictionary. *)
Lemma create_default_time (amap : Map) (lst : list string)
    (qr : list QueryResponseBlock) :
  create amap lst None = Ok qr ->
  ∀ b, b ∈ qr ->
    exists s e, amap !! "Time_start" = Some (VTime s)
                ∧ amap !! "Time_end" = Some (VTime e)
                ∧ time b = mkTimeRange s e.
Proof.
  unfold create. intros H b Hb.
  destruct (iter_urls_blocks _ _ _ H b Hb) as (aurl & t & Hin & Hinit).
  apply zip_replicate_None in Hin as ->.
  unfold QueryResponseBlock_init, TimeRange_call in Hinit.
  destruct (amap !! "Time_start") as [[| s | | |]|]; try discriminate.
  destruct (amap !! "Time_end") as [[| e | | |]|]; try discriminate.
  simpl in Hinit. injection Hinit as <-. eauto.
Qed.

(** C7: when [_get_time_for_url] answers [NotImplemented], every block of
    the response that [search] returns has for its [time] the interval from
    the [Time_start] entry to the [Time_end] entry of the client's [map_]
    dictionary. *)
Theorem search_default_time (cls : ClientClass) (args : list Attr)
    (kwargs m0 m1 : Map) (qr : list QueryResponseBlock) :
  (∀ urls m, snd (_get_time_for_url cls urls m) = Ok NotImplemented) ->
  search cls args kwargs m0 = (m1, Ok qr) ->
  ∀ b, b ∈ qr ->
    exists s e, m1 !! "Time_start" = Some (VTime s)
                ∧ m1 !! "Time_end" = Some (VTime e)
                ∧ time b = mkTimeRange s e.
Proof.
  intros Hni Hsearch. unfold search in Hsearch.
  rewrite M_bind_unfold in Hsearch.
  destruct (search_kwergs cls args kwargs m0) as [ma [kwergs|e]];
    [|discriminate].
  rewrite M_bind_unfold in Hsearch. unfold get_map_ at 1 in Hsearch.
  rewrite M_bind_unfold in Hsearch. unfold lift at 1 in Hsearch.
  destruct (_get_url_for_timerange cls (ma !! "TimeRange") kwergs)
    as [urls|e]; [|discriminate].
  assert (Hfallback : ∀ m,
    (get_map_ ≫= fun map_ => lift (create map_ urls None)) m = (m1, Ok qr) ->
    ∀ b, b ∈ qr ->
      exists s e, m1 !! "Time_start" = Some (VTime s)
                  ∧ m1 !! "Time_end" = Some (VTime e)
                  ∧ time b = mkTimeRange s e).
  { intros m Hm. rewrite M_bind_unfold in Hm. unfold get_map_, lift in Hm.
    injection Hm as -> Hcreate. by apply create_default_time with urls. }
  destruct urls as [|u urls']; [by apply Hfallback with ma|].
  rewrite M_bind_unfold in Hsearch. specialize (Hni (u :: urls') ma).
  destruct (_get_time_for_url cls (u :: urls') ma) as [mb [times|e]];
    simpl in Hni; [|discriminate].
  injection Hni as ->. by apply Hfallback with mb.
Qed.

Lemma search_default_time_witness :
  search SampleClient [ATime "Time" 3 9] ∅ ∅
  = (sample_map, Ok [block_a; block_b])
  ∧ block_b ∈ [block_a; block_b]
  ∧ exists s e, sample_map !! "Time_start" = Some (VTime s)
                ∧ sample_map !! "Time_end" = Some (VTime e)
                ∧ time block_b = mkTimeRange s e.
Proof.
  assert (H1 : ∀ urls m,
    snd (_get_time_for_url SampleClient urls m) = Ok NotImplemented)
    by reflexivity.
  assert (H2 : search SampleClient [ATime "Time" 3 9] ∅ ∅
               = (sample_map, Ok [block_a; block_b])).
  { vm_compute. reflexivity. }
  assert (H3 : block_b ∈ [block_a; block_b]) by (right; left).
  split; [exact H2|]. split; [exact H3|].
  exact (search_default_time SampleClient [ATime "Time" 3 9] ∅ ∅ _ _
           H1 H2 block_b H3).
Defined.

(** *** The descriptor across two calls of [search] *)






(** ** Templates *)

Lemma append_nil_l (s : string) : "" +:+ s = s.
Proof. reflexivity. Qed.

Lemma append_cons_l (c : ascii) (s r : string) :
  String c s +:+ r = String c (s +:+ r).
Proof. reflexivity. Qed.

Lemma is_field_punct_brace (c : ascii) :
  is_field_punct c = false -> Ascii.eqb c "{" = false ∧ Ascii.eqb c "}" = false.
Proof. unfold is_field_punct. rewrite !orb_false_iff. tauto. Qed.

Section Formatting.
Variable env : Env.
Variable kwargs : Map.

(** A plain named field that the keyword arguments lack is a [KeyError]. *)
Lemma render_field_missing (field : list ascii) :
  existsb is_field_punct field = false ->
  forallb is_digit field = false ->
  kwargs !! string_of_list_ascii field = None ->
  render_field env kwargs field
  = Raise (KeyError (string_of_list_ascii field)).
Proof. intros H1 H2 H3. unfold render_field. by rewrite H1, H2, H3. Qed.

(** Text without braces is copied. *)
Lemma format_from_text (lit : list ascii) (rest : string) :
  existsb is_brace lit = false ->
  format_from env kwargs Text (string_of_list_ascii lit +:+ rest)
  = (fun out => string_of_list_ascii lit +:+ out)
    <$> format_from env kwargs Text rest.
Proof.
  induction lit as [|c lit IH]; intros H; cbn [string_of_list_ascii].
  - rewrite append_nil_l. by destruct (format_from env kwargs Text rest).
  - cbn [existsb] in H. apply orb_false_elim in H as [Hc Hlit].
    apply orb_false_elim in Hc as [Ho Hc].
    rewrite append_cons_l. cbn [format_from]. rewrite Ho, Hc, (IH Hlit).
    by destruct (format_from env kwargs Text rest).
Qed.

(** Inside a field, up to its closing brace. *)
Lemma format_from_infield (name cur : list ascii) (rest : string) :
  existsb is_field_punct name = false ->
  format_from env kwargs (InField 0 cur)
    (string_of_list_ascii name +:+ String "}" rest)
  = out ← render_field env kwargs (rev cur ++ name);
    (fun r => out +:+ r) <$> format_from env kwargs Text rest.
Proof.
  revert cur. induction name as [|c name IH]; intros cur H;
    cbn [string_of_list_ascii].
  - rewrite append_nil_l, app_nil_r. reflexivity.
  - cbn [existsb] in H. apply orb_false_elim in H as [Hc Hname].
    apply is_field_punct_brace in Hc as [Ho Hc].
    rewrite append_cons_l. cbn [format_from]. rewrite Ho, Hc.
    rewrite (IH (c :: cur) Hname). cbn [rev]. by rewrite <- app_assoc.
Qed.

(** A template that opens with text and a plain named field: the field is
    looked up in the keyword arguments, a missing one is a [KeyError] and
    what follows in the template is not read. *)
Lemma format_first_field (lit name : list ascii) (rest : string) :
  existsb is_brace lit = false ->
  existsb is_field_punct name = false ->
  forallb is_digit name = false ->
  format env (string_of_list_ascii lit +:+ String "{"
                (string_of_list_ascii name +:+ String "}" rest)) kwargs
  = match kwargs !! string_of_list_ascii name with
    | Some v =>
        (fun out => string_of_list_ascii lit +:+ py_str env v +:+ out)
        <$> format env rest kwargs
    | None => Raise (KeyError (string_of_list_ascii name))
    end.
Proof.
  intros Hlit Hp Hd. unfold format. rewrite (format_from_text _ _ Hlit).
  destruct name as [|c name]; [discriminate|].
  pose proof Hp as Hp'. cbn [existsb] in Hp'.
  apply orb_false_elim in Hp' as [Hc Hname].
  apply is_field_punct_brace in Hc as [Ho Hc].
  cbn [string_of_list_ascii]. rewrite append_cons_l. cbn [format_from].
  rewrite Ho, Hc, (format_from_infield _ _ _ Hname).
  cbn [rev app]. unfold render_field. rewrite Hp, Hd.
  cbn [string_of_list_ascii].
  destruct (kwargs !! String c (string_of_list_ascii name)) as [v|];
    [|reflexivity].
  by destruct (format_from env kwargs Text rest).
Qed.
End Formatting.

(** ** _get_full_filenames *)

Section PathResolver.
Variable env : Env.
Variable qres : list QueryResponseBlock.
Variable path : PathArg.



(** One destination per file name. *)
Lemma full_filenames_loop_length (filenames : list string) (i : nat)
    (fname : PyObj) (acc paths : list PyObj) :
  full_filenames_loop env qres path i filenames fname acc = Ok paths ->
  length paths = (length acc + length filenames)%nat.
Proof.
  revert i fname acc.
  induction filenames as [|filename rest IH]; intros i fname acc H;
    simpl in H.
  - injection H as <-. simpl. lia.
  - destruct (full_filenames_step env qres path i filename fname) as [f|e];
      [|discriminate].
    simpl in H. apply IH in H. rewrite H, length_app. simpl. lia.
Qed.


(** When [path] is a string that holds the placeholder, neither branch of
    the test at the head of the loop assigns [fname]: the first turn reads
    the variable before any assignment. *)
Lemma full_filenames_placeholder_unbound (b : QueryResponseBlock)
    (filename : string) (rest : list string) (p : string) :
  contains "{file}" p = true ->
  qres !! 0%nat = Some b ->
  _get_full_filenames env qres (filename :: rest) (PathStr p)
  = Raise (UnboundLocalError "fname").
Proof.
  intros Hp Hb. unfold _get_full_filenames. simpl.
  unfold full_filenames_step. rewrite Hp, Hb. reflexivity.
Qed.

(** With a directory that lacks the placeholder, a template whose first
    field is a plain name missing from the first block is a [KeyError]. *)
Lemma get_full_filenames_missing_field (b : QueryResponseBlock)
    (filename : string) (rest : list string) (p : string)
    (lit name : list ascii) (tail : string) :
  contains "{file}" p = false ->
  path_join p "{file}"
  = string_of_list_ascii lit +:+ String "{"
      (string_of_list_ascii name +:+ String "}" tail) ->
  existsb is_brace lit = false ->
  existsb is_field_punct name = false ->
  forallb is_digit name = false ->
  string_of_list_ascii name ≠ "file" ->
  qres !! 0%nat = Some b ->
  _map b !! string_of_list_ascii name = None ->
  _get_full_filenames env qres (filename :: rest) (PathStr p)
  = Raise (KeyError (string_of_list_ascii name)).
Proof.
  intros Hp Htpl Hlit Hpunct Hdigit Hfile Hb Hmiss.
  unfold _get_full_filenames. cbn [full_filenames_loop].
  unfold full_filenames_step. rewrite Hp, Hb. cbn [negb].
  rewrite Htpl.
  change (Ok b ≫= ?f) with (f b). cbv beta.
  rewrite (format_first_field _ _ _ _ _ Hlit Hpunct Hdigit).
  rewrite lookup_insert_ne by congruence. rewrite Hmiss. reflexivity.
Qed.
End PathResolver.


Example get_full_filenames_missing_instrument :
  _get_full_filenames sample_env [block_a] ["a.fits"]
    (PathStr "/data/{instrument}")
  = Raise (KeyError "instrument").
Proof.
  apply (get_full_filenames_missing_field sample_env [block_a] block_a
           "a.fits" [] "/data/{instrument}"
           (list_ascii_of_string "/data/") (list_ascii_of_string "instrument")
           "/{file}");
    first [reflexivity | discriminate | vm_compute; reflexivity].
Qed.

(** C2: the code at a path that already holds the placeholder.  The
    template is never taken from [path]: for one block and one file name the
    call raises [UnboundLocalError] instead of returning the destination
    "/data/a.fits", while the same directory without the placeholder does
    resolve to it. *)
Theorem get_full_filenames_placeholder_path :
  _get_full_filenames sample_env [block_a] ["a.fits"] (PathStr "/data/{file}")
  = Raise (UnboundLocalError "fname")
  ∧ _get_full_filenames sample_env [block_a] ["a.fits"] (PathStr "/data")
    = Ok [PPartial "/data/a.fits"].
Proof.
  split.
  - by apply full_filenames_placeholder_unbound with block_a.
  - vm_compute. reflexivity.
Qed.

(** ** fetch *)

Lemma W_bind_unfold {C A B : Type} (c : W C A) (f : A -> W C B) :
  c ≫= f = match c with
           | (log, Ok a) => let '(log', r) := f a in (log ++ log', r)
           | (log, Raise e) => (log, Raise e)
           end.
Proof. reflexivity. Qed.

(** Submitting the tasks never raises. *)
Lemma download_all_ok {C : Type} (tasks : list (string * list string * PyObj))
    (error_callback : option C) :
  snd (download_all tasks error_callback) = Ok tt.
Proof.
  induction tasks as [|[[aurl ncall] fname] rest IH]; [reflexivity|].
  change (download_all ((aurl, ncall, fname) :: rest) error_callback)
    with (tell (Download aurl fname ncall error_callback) ≫= fun _ =>
          download_all rest error_callback).
  rewrite W_bind_unfold. unfold tell.
  destruct (download_all rest error_callback) as [log r]. exact IH.
Qed.

(** Fail fast: when [fetch] raises, the downloader has not been built and
    no download has been submitted. *)
Lemma fetch_raise_no_event {C : Type} (env : Env)
    (qres : list QueryResponseBlock) (path : PathArg)
    (error_callback : option C) (log : list (Event C)) (e : Exc) :
  fetch env qres path error_callback = (log, Raise e) -> log = [].
Proof.
  unfold fetch. rewrite W_bind_unfold. unfold liftW at 1.
  destruct (check_path env path) as [path'|e1]; [|by intros [= <- _]].
  rewrite W_bind_unfold. unfold liftW at 1.
  destruct (_get_full_filenames env qres _ path') as [paths|e2];
    [|by intros [= <- _]].
  rewrite !W_bind_unfold. unfold tell.
  pose proof (download_all_ok
    (zip (zip (url <$> qres) ((fun x => [x]) <$> (url <$> qres))) paths)
    error_callback) as Hok.
  destruct (download_all _ error_callback) as [log' [[]|e3]];
    simpl in *; discriminate.
Qed.

(** C8: the code at a template that holds the placeholder and names a field
    the block lacks.  [fetch] does stop before any download is submitted,
    but with the [UnboundLocalError] of the unassigned template, not with
    the [KeyError] of the missing field; that [KeyError] is what the same
    template gives when the placeholder is left to be appended. *)
Theorem fetch_missing_field_placeholder_path :
  sample_map !! "instrument" = None
  ∧ @fetch unit sample_env [block_a] (PathStr "/data/{instrument}/{file}") None
    = ([], Raise (UnboundLocalError "fname"))
  ∧ @fetch unit sample_env [block_a] (PathStr "/data/{instrument}") None
    = ([], Raise (KeyError "instrument")).
Proof. repeat split; vm_compute; reflexivity. Qed.

(** C10: a [path] that is neither [None], nor a string, nor a
    [pathlib.Path] makes [fetch] raise [TypeError] with nothing done: the
    outcome is the same for every response, and no event is logged; a
    [pathlib.Path] is replaced by the string of its absolute form, and
    [fetch] goes on as for that string. *)
Theorem fetch_path_type {C : Type} (env : Env)
    (qres : list QueryResponseBlock) (error_callback : option C) :
  (∀ type_name,
     fetch env qres (PathOther type_name) error_callback
     = ([], Raise (path_type_error type_name)))
  ∧ (∀ p,
       check_path env (PathLib p) = Ok (PathStr (absolute env p))
       ∧ fetch env qres (PathLib p) error_callback
         = fetch env qres (PathStr (absolute env p)) error_callback).
Proof. split; [reflexivity|]. intros p. split; reflexivity. Qed.

(** * Further properties of the module *)

(** ** _makeargs: frame, reserved keys, exceptions *)

Lemma makeargs_loop_app_inv (pre post : list Attr) (m0 m : Map) :
  makeargs_loop (pre ++ post) m0 = (m, Ok tt) ->
  exists m1, makeargs_loop pre m0 = (m1, Ok tt)
             ∧ makeargs_loop post m1 = (m, Ok tt).
Proof.
  revert m0. induction pre as [|elem pre IH]; intros m0 H.
  - exists m0. split; [reflexivity | exact H].
  - rewrite <- app_comm_cons, makeargs_loop_cons in H.
    rewrite makeargs_loop_cons.
    destruct (makeargs_elem elem m0) as [m' [[]|e]]; [auto | discriminate].
Qed.

Lemma makeargs_elem_frame (elem : Attr) (m m' : Map) (r : result unit)
    (k : string) :
  makeargs_elem elem m = (m', r) -> k ∉ elem_keys elem -> m' !! k = m !! k.
Proof.
  destruct elem as [c s e|c lo hi|c lo hi|c v|c]; simpl;
    try rewrite makeargs_range_eq; intros H Hk; inversion H; subst;
    try reflexivity.
  - rewrite !lookup_insert_ne; [done|..]; intros <-; apply Hk; clear;
      set_solver.
  - apply lookup_insert_ne. intros <-. apply Hk. clear. set_solver.
  - apply lookup_insert_ne. intros <-. apply Hk. clear. set_solver.
  - apply lookup_insert_ne. intros <-. apply Hk. clear. set_solver.
Qed.

Lemma makeargs_loop_unchanged (args : list Attr) (m m' : Map)
    (r : result unit) (k : string) :
  makeargs_loop args m = (m', r) -> k ∉ args_keys args -> m' !! k = m !! k.
Proof.
  revert m. induction args as [|elem rest IH]; intros m H Hk.
  - by injection H as <- _.
  - rewrite makeargs_loop_cons in H.
    assert (Hk1 : k ∉ elem_keys elem)
      by (intros Hin; apply Hk; unfold args_keys; simpl; clear -Hin; set_solver).
    assert (Hk2 : k ∉ args_keys rest)
      by (intros Hin; apply Hk; unfold args_keys in *; simpl; clear -Hin;
          set_solver).
    destruct (makeargs_elem elem m) as [m1 [[]|e]] eqn:Helem.
    + rewrite (IH _ H Hk2). by eapply makeargs_elem_frame.
    + injection H as <- _. by eapply makeargs_elem_frame.
Qed.

(** X1: the loop of [_makeargs] touches no entry of [map_] other than those
    its arguments name, whether it runs to its end or stops at an
    exception. *)
Theorem makeargs_loop_frame (args : list Attr) (m m' : Map) (r : result unit)
    (k : string) :
  makeargs_loop args m = (m', r) -> k ∉ args_keys args -> m' !! k = m !! k.
Proof. apply makeargs_loop_unchanged. Qed.

Lemma makeargs_loop_frame_witness :
  makeargs_loop [AValue "Instrument" (VScalar (SStr "aia")); AOther "Extent"]
    sample_map
  = (<["instrument" := VScalar (SStr "aia")]> sample_map,
     Raise (ValueError (unsupported_msg "Extent")))
  ∧ ("source" ∉ args_keys [AValue "Instrument" (VScalar (SStr "aia"));
                           AOther "Extent"])
  ∧ (<["instrument" := VScalar (SStr "aia")]> sample_map) !! "source"
    = sample_map !! "source".
Proof.
  assert (H1 : makeargs_loop
                 [AValue "Instrument" (VScalar (SStr "aia")); AOther "Extent"]
                 sample_map
               = (<["instrument" := VScalar (SStr "aia")]> sample_map,
                  Raise (ValueError (unsupported_msg "Extent"))))
    by reflexivity.
  assert (H2 : "source" ∉ args_keys
                 [AValue "Instrument" (VScalar (SStr "aia")); AOther "Extent"]).
  { unfold args_keys. simpl. clear. set_solver. }
  split; [exact H1|]. split; [exact H2|].
  exact (makeargs_loop_frame _ _ _ _ _ H1 H2).
Defined.

(** [str.lower] never yields a capital T, so no lower-cased class name is
    one of the keys [TimeRange], [Time_start], [Time_end]. *)
Lemma lower_ascii_not_T (a : ascii) : lower_ascii a ≠ "T"%char.
Proof.
  destruct a as [[] [] [] [] [] [] [] []]; vm_compute; discriminate.
Qed.

Lemma lower_not_capital_T (c r : string) : lower c ≠ String "T" r.
Proof.
  destruct c as [|a c']; simpl; [discriminate|].
  intros [= H _]. by apply (lower_ascii_not_T a).
Qed.

Lemma no_time_reserved_keys (post : list Attr) (k r : string) :
  forallb (fun elem => negb (is_time elem)) post = true ->
  k = String "T" r -> k ∉ args_keys post.
Proof.
  intros Hpost ->. induction post as [|elem rest IH].
  - unfold args_keys. simpl. set_solver.
  - simpl in Hpost. apply andb_true_iff in Hpost as [Helem Hrest].
    unfold args_keys in *. simpl. apply not_elem_of_union. split; [|auto].
    destruct elem as [c s e|c lo hi|c lo hi|c v|c]; simpl in *;
      try discriminate; try apply not_elem_of_empty;
      (intros Hin; apply elem_of_singleton in Hin;
       symmetry in Hin; by apply lower_not_capital_T in Hin).
Qed.

(** X2: when the loop of [_makeargs] runs to its end, the three time entries
    of [map_] are those of the last time constraint of the sequence, and
    they agree with one another; no constraint of another kind can
    overwrite them, whatever its class is called. *)
Theorem makeargs_last_time_wins (pre post : list Attr) (c : string) (s e : Z)
    (m0 m : Map) :
  forallb (fun elem => negb (is_time elem)) post = true ->
  makeargs_loop (pre ++ ATime c s e :: post) m0 = (m, Ok tt) ->
  m !! "TimeRange" = Some (VTimeRange (mkTimeRange s e))
  ∧ m !! "Time_start" = Some (VTime s)
  ∧ m !! "Time_end" = Some (VTime e).
Proof.
  intros Hpost H.
  apply makeargs_loop_app_inv in H as (m1 & _ & H).
  rewrite makeargs_loop_cons in H.
  change (makeargs_elem (ATime c s e) m1)
    with (<["Time_end" := VTime e]>
            (<["Time_start" := VTime s]>
               (<["TimeRange" := VTimeRange (mkTimeRange s e)]> m1)), Ok tt)
    in H.
  repeat split.
  - rewrite (makeargs_loop_unchanged _ _ _ _ "TimeRange" H);
      [|by eapply no_time_reserved_keys].
    rewrite !lookup_insert_ne by discriminate. apply lookup_insert_eq.
  - rewrite (makeargs_loop_unchanged _ _ _ _ "Time_start" H);
      [|by eapply no_time_reserved_keys].
    rewrite lookup_insert_ne by discriminate. apply lookup_insert_eq.
  - rewrite (makeargs_loop_unchanged _ _ _ _ "Time_end" H);
      [|by eapply no_time_reserved_keys].
    apply lookup_insert_eq.
Qed.

Lemma makeargs_last_time_wins_witness :
  makeargs_loop ([ATime "Time" 1 5]
                 ++ ATime "Time" 10 20
                    :: [AValue "Time_start" (VScalar (SStr "x"))]) ∅
  = (<["time_start" := VScalar (SStr "x")]> second_time_map, Ok tt)
  ∧ (<["time_start" := VScalar (SStr "x")]> second_time_map) !! "TimeRange"
    = Some (VTimeRange (mkTimeRange 10 20))
  ∧ (<["time_start" := VScalar (SStr "x")]> second_time_map) !! "Time_start"
    = Some (VTime 10)
  ∧ (<["time_start" := VScalar (SStr "x")]> second_time_map) !! "Time_end"
    = Some (VTime 20).
Proof.
  assert (H : makeargs_loop ([ATime "Time" 1 5]
                 ++ ATime "Time" 10 20
                    :: [AValue "Time_start" (VScalar (SStr "x"))]) ∅
              = (<["time_start" := VScalar (SStr "x")]> second_time_map, Ok tt)).
  { vm_compute. reflexivity. }
  split; [exact H|].
  exact (makeargs_last_time_wins [ATime "Time" 1 5]
           [AValue "Time_start" (VScalar (SStr "x"))] "Time" 10 20 ∅ _
           eq_refl H).
Defined.

(** X3: an unsupported constraint stops [_makeargs] where it stands: the
    constraints before it have been written to [map_] and stay written, the
    constraints after it are not looked at, and [_makeimap] is not called. *)
Theorem makeargs_stops_at_unsupported (cls : ClientClass)
    (pre post : list Attr) (c : string) (m0 m1 : Map) :
  makeargs_loop pre m0 = (m1, Ok tt) ->
  _makeargs cls (pre ++ AOther c :: post) m0
  = (m1, Raise (ValueError (unsupported_msg c))).
Proof.
  intros Hpre. unfold _makeargs.
  rewrite M_bind_unfold, (makeargs_loop_app _ _ _ _ Hpre). reflexivity.
Qed.

Lemma makeargs_stops_at_unsupported_witness :
  makeargs_loop [AValue "Instrument" (VScalar (SStr "aia"))] ∅
  = (<["instrument" := VScalar (SStr "aia")]> ∅, Ok tt)
  ∧ _makeargs SampleClient
      ([AValue "Instrument" (VScalar (SStr "aia"))]
       ++ AOther "Extent" :: [ATime "Time" 1 5]) ∅
    = (<["instrument" := VScalar (SStr "aia")]> ∅,
       Raise (ValueError (unsupported_msg "Extent"))).
Proof.
  split; [reflexivity|].
  apply (makeargs_stops_at_unsupported SampleClient
           [AValue "Instrument" (VScalar (SStr "aia"))] [ATime "Time" 1 5]
           "Extent" ∅).
  reflexivity.
Defined.

(** ** search: the calls it makes, one after the other *)

Lemma search_unfold (cls : ClientClass) (args : list Attr) (kwargs m0 : Map) :
  search cls args kwargs m0 =
  match search_kwergs cls args kwargs m0 with
  | (ma, Raise e) => (ma, Raise e)
  | (ma, Ok kwergs) =>
      match _get_url_for_timerange cls (ma !! "TimeRange") kwergs with
      | Raise e => (ma, Raise e)
      | Ok [] => (ma, create ma [] None)
      | Ok (u :: us) =>
          match _get_time_for_url cls (u :: us) ma with
          | (mb, Raise e) => (mb, Raise e)
          | (mb, Ok (Times (t :: ts))) =>
              (mb, create mb (u :: us) (Some (Some <$> t :: ts)))
          | (mb, Ok _) => (mb, create mb (u :: us) None)
          end
      end
  end.
Proof.
  unfold search. rewrite M_bind_unfold.
  destruct (search_kwergs cls args kwargs m0) as [ma [kwergs|e]];
    [|reflexivity].
  rewrite M_bind_unfold. unfold get_map_ at 1.
  rewrite M_bind_unfold. unfold lift at 1.
  destruct (_get_url_for_timerange cls (ma !! "TimeRange") kwergs)
    as [[|u us]|e]; try reflexivity.
  rewrite M_bind_unfold.
  destruct (_get_time_for_url cls (u :: us) ma) as [mb [[|[|t ts]]|e]];
    reflexivity.
Qed.

Lemma search_kwergs_ok (cls : ClientClass) (args : list Attr)
    (kwargs m0 ma d : Map) :
  search_kwergs cls args kwargs m0 = (ma, Ok d) -> kwargs = ∅ ∧ d = ma.
Proof.
  unfold search_kwergs. rewrite M_bind_unfold.
  destruct (decide (kwargs = ∅)) as [->|Hne]; [|discriminate].
  destruct (_makeargs cls args m0) as [m' [[]|e]]; [|discriminate].
  intros [= <- <-]. split; [done|]. by rewrite (left_id_L ∅ (∪)).
Qed.

(** X4: [search] accepts no keyword argument: with any, the call of
    [_makeargs] raises [TypeError] at once; [map_] is left as it was and no
    method of the client class is called. *)
Theorem search_rejects_kwargs (cls : ClientClass) (args : list Attr)
    (kwargs m0 : Map) :
  kwargs ≠ ∅ ->
  search cls args kwargs m0
  = (m0, Raise (TypeError "_makeargs() got an unexpected keyword argument")).
Proof.
  intros Hne. rewrite search_unfold. unfold search_kwergs.
  rewrite M_bind_unfold. by destruct (decide (kwargs = ∅)).
Qed.

Lemma search_rejects_kwargs_witness :
  ({["wavelength" := VScalar (SNum 171)]} : Map) ≠ ∅
  ∧ search SampleClient [ATime "Time" 3 9]
      {["wavelength" := VScalar (SNum 171)]} ∅
    = (∅, Raise (TypeError "_makeargs() got an unexpected keyword argument")).
Proof.
  assert (H : ({["wavelength" := VScalar (SNum 171)]} : Map) ≠ ∅)
    by apply insert_non_empty.
  split; [exact H|].
  exact (search_rejects_kwargs SampleClient [ATime "Time" 3 9] _ ∅ H).
Defined.

(** X5: on [GenericClient] itself, whose [_makeimap] is not implemented,
    [search] with constraints of the three shapes raises
    [NotImplementedError], after the constraints have been written to
    [map_]. *)
Theorem search_generic_not_implemented (args : list Attr) (m0 : Map) :
  existsb is_other args = false ->
  exists m, makeargs_loop args m0 = (m, Ok tt)
            ∧ search GenericClient args ∅ m0 = (m, Raise NotImplementedError).
Proof.
  intros Hargs. pose proof (makeargs_loop_supported args m0 Hargs) as Hok.
  destruct (makeargs_loop args m0) as [m r] eqn:Hloop. simpl in Hok. subst r.
  exists m. split; [reflexivity|].
  rewrite search_unfold. unfold search_kwergs. rewrite M_bind_unfold.
  destruct (decide ((∅ : Map) = ∅)) as [_|Hne]; [|done].
  unfold _makeargs. rewrite M_bind_unfold, Hloop. reflexivity.
Qed.

Lemma search_generic_not_implemented_witness :
  existsb is_other [ATime "Time" 10 20] = false
  ∧ exists m, makeargs_loop [ATime "Time" 10 20] ∅ = (m, Ok tt)
              ∧ search GenericClient [ATime "Time" 10 20] ∅ ∅
                = (m, Raise NotImplementedError).
Proof.
  split; [reflexivity|].
  apply (search_generic_not_implemented [ATime "Time" 10 20] ∅). reflexivity.
Defined.

(** X6: when the client finds no URL, [search] returns the empty response
    without reading the time entries of [map_]: no data is not an error. *)
Theorem search_no_urls (cls : ClientClass) (args : list Attr)
    (kwargs m0 ma d : Map) :
  search_kwergs cls args kwargs m0 = (ma, Ok d) ->
  _get_url_for_timerange cls (ma !! "TimeRange") d = Ok [] ->
  search cls args kwargs m0 = (ma, Ok []).
Proof. intros Hk Hurls. rewrite search_unfold, Hk, Hurls. reflexivity. Qed.

Lemma search_no_urls_witness :
  search_kwergs EmptyClient [AValue "Instrument" (VScalar (SStr "aia"))] ∅ ∅
  = (<["instrument" := VScalar (SStr "aia")]> ∅,
     Ok (<["instrument" := VScalar (SStr "aia")]> ∅))
  ∧ _get_url_for_timerange EmptyClient
      ((<["instrument" := VScalar (SStr "aia")]> ∅ : Map) !! "TimeRange")
      (<["instrument" := VScalar (SStr "aia")]> ∅) = Ok []
  ∧ search EmptyClient [AValue "Instrument" (VScalar (SStr "aia"))] ∅ ∅
    = (<["instrument" := VScalar (SStr "aia")]> ∅, Ok []).
Proof.
  assert (H1 : search_kwergs EmptyClient
                 [AValue "Instrument" (VScalar (SStr "aia"))] ∅ ∅
               = (<["instrument" := VScalar (SStr "aia")]> ∅,
                  Ok (<["instrument" := VScalar (SStr "aia")]> ∅))).
  { vm_compute. reflexivity. }
  split; [exact H1|]. split; [reflexivity|].
  exact (search_no_urls EmptyClient _ ∅ ∅ _ _ H1 eq_refl).
Defined.

(** ** The blocks of a response *)

Lemma QueryResponseBlock_init_fields (map0 : Map) (aurl : string)
    (t : option TimeRange) (b : QueryResponseBlock) :
  QueryResponseBlock_init map0 aurl t = Ok b ->
  _map b = map0 ∧ url b = aurl
  ∧ source b = get_default map0 "source" not_available
  ∧ provider b = get_default map0 "provider" not_available
  ∧ physobs b = get_default map0 "physobs" not_available
  ∧ instrument b = get_default map0 "instrument" not_available
  ∧ wave b = get_default map0 "wavelength" VNaN
  ∧ ∀ tr, t = Some tr -> time b = tr.
Proof.
  unfold QueryResponseBlock_init. intros H.
  match type of H with (?x ≫= _) = _ => destruct x as [tr|e] eqn:Htr end;
    [|discriminate].
  simpl in H. injection H as <-. simpl. repeat split; try reflexivity.
  intros tr' ->. by injection Htr as ->.
Qed.

Lemma iter_urls_urls (amap : Map) (pairs : list (string * option TimeRange))
    (qr : list QueryResponseBlock) :
  iter_urls amap pairs = Ok qr -> url <$> qr = pairs.*1.
Proof.
  revert qr. induction pairs as [|[aurl t] rest IH]; intros qr H; simpl in H.
  - by injection H as <-.
  - destruct (QueryResponseBlock_init amap aurl t) as [tmp|e] eqn:Hinit;
      [|discriminate].
    simpl in H. destruct (iter_urls amap rest) as [blocks|e]; [|discriminate].
    simpl in H. injection H as <-.
    apply QueryResponseBlock_init_fields in Hinit as (_ & Hurl & _).
    rewrite !fmap_cons. cbn [fst]. by rewrite Hurl, (IH blocks eq_refl).
Qed.

Lemma zip_fst_take {A B : Type} (l : list A) (k : list B) :
  (zip l k).*1 = take (length k) l.
Proof.
  revert k. induction l as [|x l IH]; intros [|y k]; simpl; try reflexivity.
  by rewrite IH.
Qed.

Lemma create_urls_prefix (amap : Map) (lst : list string)
    (time : option (list (option TimeRange))) (qr : list QueryResponseBlock) :
  create amap lst time = Ok qr ->
  url <$> qr `prefix_of` lst ∧ (time = None -> url <$> qr = lst).
Proof.
  unfold create. intros H. apply iter_urls_urls in H. rewrite H, zip_fst_take.
  split; [apply prefix_take|].
  intros ->. rewrite length_replicate. apply firstn_all.
Qed.

(** X7: with a list of time ranges, [QueryResponse.create] never raises and
    pairs URLs and time ranges in order up to the shorter of the two lists:
    a URL beyond the last time range gets no block. *)
Theorem create_with_times (amap : Map) (lst : list string)
    (ts : list TimeRange) :
  exists qr, create amap lst (Some (Some <$> ts)) = Ok qr
             ∧ url <$> qr = take (length ts) lst
             ∧ time <$> qr = take (length lst) ts.
Proof.
  unfold create. revert ts. induction lst as [|u lst IH]; intros [|t ts];
    try (eexists; repeat split; reflexivity).
  destruct (IH ts) as (qr & Hqr & Hurl & Htime).
  rewrite fmap_cons. cbn [zip zip_with iter_urls]. rewrite Hqr.
  eexists. split; [reflexivity|].
  rewrite !fmap_cons, Hurl, Htime. split; reflexivity.
Qed.

Lemma create_blocks_map (amap : Map) (lst : list string)
    (time : option (list (option TimeRange))) (qr : list QueryResponseBlock) :
  create amap lst time = Ok qr ->
  ∀ b, b ∈ qr ->
    _map b = amap
    ∧ source b = get_default amap "source" not_available
    ∧ provider b = get_default amap "provider" not_available
    ∧ physobs b = get_default amap "physobs" not_available
    ∧ instrument b = get_default amap "instrument" not_available
    ∧ wave b = get_default amap "wavelength" VNaN.
Proof.
  unfold create. intros H b Hb.
  destruct (iter_urls_blocks _ _ _ H b Hb) as (aurl & t & _ & Hinit).
  apply QueryResponseBlock_init_fields in Hinit. tauto.
Qed.

(** What a successful [search] returns is [QueryResponse.create] applied to
    [map_] as it stands at the end and to the URLs the client found. *)
Lemma search_ok_create (cls : ClientClass) (args : list Attr)
    (kwargs m0 m1 : Map) (qr : list QueryResponseBlock) :
  search cls args kwargs m0 = (m1, Ok qr) ->
  exists ma urls time,
    search_kwergs cls args kwargs m0 = (ma, Ok ma)
    ∧ _get_url_for_timerange cls (ma !! "TimeRange") ma = Ok urls
    ∧ create m1 urls time = Ok qr
    ∧ (snd (_get_time_for_url cls urls ma) = Ok NotImplemented -> time = None).
Proof.
  rewrite search_unfold.
  destruct (search_kwergs cls args kwargs m0) as [ma [d|e]] eqn:Hk;
    [|discriminate].
  destruct (search_kwergs_ok _ _ _ _ _ _ Hk) as [_ ->].
  destruct (_get_url_for_timerange cls (ma !! "TimeRange") ma)
    as [[|u us]|e] eqn:Hurls; [| |discriminate].
  - intros H. exists ma, [], None.
    split; [done|]. split; [done|]. split; [congruence | done].
  - destruct (_get_time_for_url cls (u :: us) ma) as [mb [[|[|t ts]]|e]]
      eqn:Ht; intros H; try discriminate.
    + exists ma, (u :: us), None.
      split; [done|]. split; [done|]. split; [congruence | done].
    + exists ma, (u :: us), None.
      split; [done|]. split; [done|]. split; [congruence | done].
    + exists ma, (u :: us), (Some (Some <$> t :: ts)).
      split; [done|]. split; [done|]. split; [congruence|].
      rewrite Ht. discriminate.
Qed.

(** X8: every block of the response that [search] returns carries [map_] as
    it stands at the end of the call, and takes its [source], [provider],
    [physobs], [instrument] and [wave] from it, with the string
    "Data not Available" (NaN for [wave]) where the entry is missing: all the
    blocks of one response have the same descriptive fields. *)
Theorem search_blocks_metadata (cls : ClientClass) (args : list Attr)
    (kwargs m0 m1 : Map) (qr : list QueryResponseBlock) :
  search cls args kwargs m0 = (m1, Ok qr) ->
  ∀ b, b ∈ qr ->
    _map b = m1
    ∧ source b = get_default m1 "source" not_available
    ∧ provider b = get_default m1 "provider" not_available
    ∧ physobs b = get_default m1 "physobs" not_available
    ∧ instrument b = get_default m1 "instrument" not_available
    ∧ wave b = get_default m1 "wavelength" VNaN.
Proof.
  intros H. apply search_ok_create in H as (ma & urls & t & _ & _ & Hc & _).
  by eapply create_blocks_map.
Qed.

Lemma search_blocks_metadata_witness :
  search SampleClient [ATime "Time" 3 9] ∅ ∅
  = (sample_map, Ok [block_a; block_b])
  ∧ block_a ∈ [block_a; block_b]
  ∧ _map block_a = sample_map
  ∧ source block_a = get_default sample_map "source" not_available
  ∧ provider block_a = get_default sample_map "provider" not_available
  ∧ physobs block_a = get_default sample_map "physobs" not_available
  ∧ instrument block_a = get_default sample_map "instrument" not_available
  ∧ wave block_a = get_default sample_map "wavelength" VNaN.
Proof.
  assert (H : search SampleClient [ATime "Time" 3 9] ∅ ∅
              = (sample_map, Ok [block_a; block_b])).
  { vm_compute. reflexivity. }
  assert (Hin : block_a ∈ [block_a; block_b]) by left.
  split; [exact H|]. split; [exact Hin|].
  exact (search_blocks_metadata SampleClient _ ∅ ∅ _ _ H block_a Hin).
Defined.

(** X9: the blocks of the response follow the URLs the client found, in
    order: their URLs are an initial part of that list, and the whole of it
    when [_get_time_for_url] answers [NotImplemented]. *)
Theorem search_urls_in_order (cls : ClientClass) (args : list Attr)
    (kwargs m0 m1 : Map) (qr : list QueryResponseBlock) :
  search cls args kwargs m0 = (m1, Ok qr) ->
  exists ma urls,
    search_kwergs cls args kwargs m0 = (ma, Ok ma)
    ∧ _get_url_for_timerange cls (ma !! "TimeRange") ma = Ok urls
    ∧ url <$> qr `prefix_of` urls
    ∧ (snd (_get_time_for_url cls urls ma) = Ok NotImplemented ->
       url <$> qr = urls).
Proof.
  intros H.
  apply search_ok_create in H as (ma & urls & t & Hk & Hurls & Hc & Hni).
  exists ma, urls. destruct (create_urls_prefix _ _ _ _ Hc) as [Hpre Hall].
  repeat split; try done. intros Ht. auto.
Qed.

Lemma search_urls_in_order_witness :
  search SampleClient [ATime "Time" 3 9] ∅ ∅
  = (sample_map, Ok [block_a; block_b])
  ∧ exists ma urls,
      search_kwergs SampleClient [ATime "Time" 3 9] ∅ ∅ = (ma, Ok ma)
      ∧ _get_url_for_timerange SampleClient (ma !! "TimeRange") ma = Ok urls
      ∧ url <$> [block_a; block_b] `prefix_of` urls
      ∧ (snd (_get_time_for_url SampleClient urls ma) = Ok NotImplemented ->
         url <$> [block_a; block_b] = urls).
Proof.
  assert (H : search SampleClient [ATime "Time" 3 9] ∅ ∅
              = (sample_map, Ok [block_a; block_b])).
  { vm_compute. reflexivity. }
  split; [exact H|].
  exact (search_urls_in_order SampleClient _ ∅ ∅ _ _ H).
Defined.

(** ** time_range does not depend on the order of the blocks *)

Lemma py_min_Permutation (l l' : list Z) : l ≡ₚ l' -> py_min l = py_min l'.
Proof.
  intros Hp. destruct l as [|x xs], l' as [|y ys]; [reflexivity| | |].
  - by apply Permutation_nil_cons in Hp.
  - symmetry in Hp. by apply Permutation_nil_cons in Hp.
  - unfold py_min. f_equal.
    destruct (foldl_min_spec xs x) as [Hin Hle].
    destruct (foldl_min_spec ys y) as [Hin' Hle'].
    rewrite Hp in Hin. rewrite <- Hp in Hin'.
    specialize (Hle _ Hin'). specialize (Hle' _ Hin). simpl in *. lia.
Qed.

Lemma py_max_Permutation (l l' : list Z) : l ≡ₚ l' -> py_max l = py_max l'.
Proof.
  intros Hp. destruct l as [|x xs], l' as [|y ys]; [reflexivity| | |].
  - by apply Permutation_nil_cons in Hp.
  - symmetry in Hp. by apply Permutation_nil_cons in Hp.
  - unfold py_max. f_equal.
    destruct (foldl_max_spec xs x) as [Hin Hle].
    destruct (foldl_max_spec ys y) as [Hin' Hle'].
    rewrite Hp in Hin. rewrite <- Hp in Hin'.
    specialize (Hle _ Hin'). specialize (Hle' _ Hin). simpl in *. lia.
Qed.

(** X10: [time_range] gives the same answer, value or exception, for any
    two orderings of the same blocks. *)
Theorem time_range_Permutation (qr qr' : list QueryResponseBlock) :
  qr ≡ₚ qr' -> time_range qr = time_range qr'.
Proof.
  intros Hp. unfold time_range.
  rewrite (py_min_Permutation _ ((fun b => start (time b)) <$> qr'))
    by (by apply fmap_Permutation).
  rewrite (py_max_Permutation _ ((fun b => end_ (time b)) <$> qr'))
    by (by apply fmap_Permutation).
  reflexivity.
Qed.

Lemma time_range_Permutation_witness :
  [block_a; block_c] ≡ₚ [block_c; block_a]
  ∧ time_range [block_a; block_c] = time_range [block_c; block_a].
Proof.
  assert (H : [block_a; block_c] ≡ₚ [block_c; block_a]) by apply perm_swap.
  split; [exact H|]. exact (time_range_Permutation _ _ H).
Defined.

(** ** Strings: slashes, joins and last segments *)

Lemma append_nil_r (s : string) : s +:+ "" = s.
Proof. induction s as [|c s IH]; [reflexivity|]. by rewrite append_cons_l, IH. Qed.

Lemma append_assoc (a b c : string) : (a +:+ b) +:+ c = a +:+ (b +:+ c).
Proof.
  induction a as [|x a IH]; [reflexivity|]. by rewrite !append_cons_l, IH.
Qed.

Lemma list_ascii_of_string_app (a b : string) :
  list_ascii_of_string (a +:+ b)
  = list_ascii_of_string a ++ list_ascii_of_string b.
Proof.
  induction a as [|x a IH]; [reflexivity|].
  rewrite append_cons_l. simpl. by rewrite IH.
Qed.

Lemma string_of_list_ascii_snoc (l : list ascii) (c : ascii) (r : string) :
  string_of_list_ascii (l ++ [c]) +:+ r = string_of_list_ascii l +:+ String c r.
Proof.
  induction l as [|x l IH]; [reflexivity|].
  simpl. by rewrite !append_cons_l, IH.
Qed.

Lemma contains_slash_cons (c : ascii) (r : string) :
  contains "/" (String c r) = (Ascii.eqb c "/" || contains "/" r)%bool.
Proof.
  cbn [contains String.prefix].
  destruct (ascii_dec "/" c) as [Heq|Hne].
  - subst c. rewrite Ascii.eqb_refl. by destruct r.
  - destruct (Ascii.eqb_spec c "/") as [->|_]; [done | reflexivity].
Qed.

(** Without a slash the whole string is its last segment. *)
Lemma last_segment_no_slash (s : string) (cur : list ascii) :
  contains "/" s = false ->
  last_segment s cur = string_of_list_ascii (rev cur) +:+ s.
Proof.
  revert cur. induction s as [|c r IH]; intros cur H.
  - simpl. by rewrite append_nil_r.
  - rewrite contains_slash_cons in H. apply orb_false_elim in H as [Hc Hr].
    simpl. rewrite Hc, (IH _ Hr). simpl. apply string_of_list_ascii_snoc.
Qed.

(** What stands before a slash is forgotten. *)
Lemma last_segment_after_slash (a b : string) (cur : list ascii) :
  last_segment (a +:+ String "/" b) cur = last_segment b [].
Proof.
  revert cur. induction a as [|c a IH]; intros cur; [reflexivity|].
  rewrite append_cons_l. simpl. destruct (Ascii.eqb c "/"); apply IH.
Qed.

Lemma endswith_sep_inv (a : string) :
  endswith_sep a = true -> exists a', a = a' +:+ "/".
Proof.
  induction a as [|c r IH]; [discriminate|]. simpl.
  destruct r as [|c' r'].
  - intros Hc. apply Ascii.eqb_eq in Hc as ->. by exists "".
  - intros H. destruct (IH H) as [a' Ha']. exists (String c a').
    by rewrite append_cons_l, <- Ha'.
Qed.

(** X11: the file name [fetch] takes from a URL is the text after its last
    slash, so that joining a directory and a name without a slash with
    [os.path.join] and taking the last segment gives the name back. *)
Theorem last_segment_path_join (a b : string) :
  contains "/" b = false -> last_segment (path_join a b) [] = b.
Proof.
  intros Hb. unfold path_join.
  assert (Hpre : String.prefix "/" b = false).
  { destruct b as [|c r]; [reflexivity|].
    rewrite contains_slash_cons in Hb. apply orb_false_elim in Hb as [Hc _].
    cbn [String.prefix].
    destruct (ascii_dec "/" c) as [Heq|]; [|reflexivity].
    subst c. by rewrite Ascii.eqb_refl in Hc. }
  rewrite Hpre. destruct (String.eqb_spec a "") as [->|Hne]; simpl.
  - rewrite append_nil_l. by rewrite last_segment_no_slash.
  - destruct (endswith_sep a) eqn:Hsep.
    + apply endswith_sep_inv in Hsep as [a' ->].
      rewrite append_assoc, append_cons_l, append_nil_l.
      rewrite last_segment_after_slash. by rewrite last_segment_no_slash.
    + rewrite append_cons_l, append_nil_l.
      rewrite last_segment_after_slash. by rewrite last_segment_no_slash.
Qed.

Lemma last_segment_path_join_witness :
  contains "/" "a.fits" = false
  ∧ last_segment (path_join "/home/user/sunpy/data" "a.fits") [] = "a.fits".
Proof.
  split; [reflexivity|].
  apply (last_segment_path_join "/home/user/sunpy/data" "a.fits"). reflexivity.
Defined.

Lemma contains_slash_existsb (s : string) :
  contains "/" s
  = existsb (fun c => Ascii.eqb c "/") (list_ascii_of_string s).
Proof.
  induction s as [|c r IH]; [reflexivity|].
  rewrite contains_slash_cons, IH. reflexivity.
Qed.

Lemma existsb_reverse {A : Type} (f : A -> bool) (l : list A) :
  existsb f (rev l) = existsb f l.
Proof.
  induction l as [|x l IH]; [reflexivity|].
  simpl. rewrite existsb_app, IH. simpl. rewrite orb_false_r. apply orb_comm.
Qed.

Lemma last_segment_slash_free (s : string) (cur : list ascii) :
  existsb (fun c => Ascii.eqb c "/") cur = false ->
  contains "/" (last_segment s cur) = false.
Proof.
  revert cur. induction s as [|c r IH]; intros cur Hcur; simpl.
  - rewrite contains_slash_existsb, list_ascii_of_string_of_list_ascii.
    by rewrite existsb_reverse.
  - destruct (Ascii.eqb c "/") eqn:Hc; [by apply IH|].
    apply IH. simpl. by rewrite Hc.
Qed.

(** X12: the file name taken from a URL never holds a slash, and is the
    whole URL when the URL holds none. *)
Theorem last_segment_spec (aurl : string) :
  contains "/" (last_segment aurl []) = false
  ∧ (contains "/" aurl = false -> last_segment aurl [] = aurl).
Proof.
  split; [by apply last_segment_slash_free|].
  intros H. by rewrite last_segment_no_slash.
Qed.

(** ** Templates without a field of their own *)

(** A template without any brace is returned as it is, whatever the
    keyword arguments. *)
Lemma format_no_brace (env : Env) (kwargs : Map) (template : string) :
  existsb is_brace (list_ascii_of_string template) = false ->
  format env template kwargs = Ok template.
Proof.
  intros H. unfold format.
  rewrite <- (append_nil_r template) at 1.
  rewrite <- (string_of_list_ascii_of_string template) at 1.
  rewrite (format_from_text env kwargs _ "" H).
  simpl. by rewrite string_of_list_ascii_of_string, append_nil_r.
Qed.

Lemma format_no_brace_witness :
  existsb is_brace (list_ascii_of_string "/data/a.fits") = false
  ∧ format sample_env "/data/a.fits" sample_map = Ok "/data/a.fits".
Proof.
  split; [reflexivity|].
  apply (format_no_brace sample_env sample_map "/data/a.fits"). reflexivity.
Defined.

Lemma format_directory_template (env : Env) (m : Map) (pre f : string) :
  existsb is_brace (list_ascii_of_string pre) = false ->
  py_str env (VScalar (SStr f)) = f ->
  format env (pre +:+ "{file}") (<["file" := VScalar (SStr f)]> m)
  = Ok (pre +:+ f).
Proof.
  intros Hpre Hstr.
  rewrite <- (string_of_list_ascii_of_string pre) at 1.
  change "{file}" with
    (String "{" (string_of_list_ascii (list_ascii_of_string "file")
                 +:+ String "}" "")).
  rewrite (format_first_field env _ (list_ascii_of_string pre)
             (list_ascii_of_string "file") "" Hpre eq_refl eq_refl).
  change (string_of_list_ascii (list_ascii_of_string "file")) with "file".
  rewrite lookup_insert_eq, Hstr, string_of_list_ascii_of_string.
  unfold format. simpl. by rewrite append_nil_r.
Qed.

Lemma contains_placeholder_brace (s : string) :
  existsb is_brace (list_ascii_of_string s) = false ->
  contains "{file}" s = false.
Proof.
  induction s as [|c r IH]; [reflexivity|]. intros H.
  cbn [list_ascii_of_string existsb] in H.
  apply orb_false_elim in H as [Hc Hr].
  cbn [contains String.prefix].
  destruct (ascii_dec "{" c) as [<-|_]; [discriminate|]. by apply IH.
Qed.

(** Joining a directory and a name that does not begin with a slash puts
    the same text before the name, whatever the name. *)
Lemma path_join_prefix (a : string) :
  exists pre,
    (∀ b, String.prefix "/" b = false -> path_join a b = pre +:+ b)
    ∧ (existsb is_brace (list_ascii_of_string a) = false ->
       existsb is_brace (list_ascii_of_string pre) = false).
Proof.
  destruct (String.eqb a "" || endswith_sep a)%bool eqn:Ha.
  - exists a. split; [|done]. intros b Hb. unfold path_join. by rewrite Hb, Ha.
  - exists (a +:+ "/"). split.
    + intros b Hb. unfold path_join. rewrite Hb, Ha.
      by rewrite append_assoc.
    + intros H. rewrite list_ascii_of_string_app, existsb_app, H.
      reflexivity.
Qed.

Lemma no_slash_no_prefix (f : string) :
  contains "/" f = false -> String.prefix "/" f = false.
Proof.
  destruct f as [|c r]; [reflexivity|]. rewrite contains_slash_cons.
  intros H. apply orb_false_elim in H as [Hc _]. cbn [String.prefix].
  destruct (ascii_dec "/" c) as [Heq|]; [|reflexivity].
  subst c. by rewrite Ascii.eqb_refl in Hc.
Qed.

(** ** _get_full_filenames: lengths, directories, collisions *)

Section Destinations.
Variable env : Env.
Variable qres : list QueryResponseBlock.

Lemma full_filenames_loop_bound (path : PathArg) (filenames : list string)
    (i : nat) (fname : PyObj) (acc paths : list PyObj) :
  full_filenames_loop env qres path i filenames fname acc = Ok paths ->
  (i + length filenames <= length qres)%nat ∨ filenames = [].
Proof.
  revert i fname acc.
  induction filenames as [|filename rest IH]; intros i fname acc H;
    [by right|left].
  simpl in H.
  destruct (full_filenames_step env qres path i filename fname) as [f|e]
    eqn:Hstep; [|discriminate].
  simpl in H. unfold full_filenames_step in Hstep.
  destruct (qres !! i) as [b|] eqn:Hb; [|discriminate].
  apply lookup_lt_Some in Hb.
  destruct (IH _ _ _ H) as [Hle| ->]; simpl; lia.
Qed.

(** X13: when [_get_full_filenames] returns, it returns one path per file
    name, and there were at least as many blocks as file names: a file name
    without a block is an exception. *)
Theorem get_full_filenames_length (path : PathArg) (filenames : list string)
    (paths : list PyObj) :
  _get_full_filenames env qres filenames path = Ok paths ->
  length paths = length filenames
  ∧ (length filenames <= length qres)%nat.
Proof.
  unfold _get_full_filenames. intros H. split.
  - by apply full_filenames_loop_length in H.
  - apply full_filenames_loop_bound in H as [H| ->]; simpl; lia.
Qed.

Lemma full_filenames_step_directory (path : PathArg) (dir : string)
    (i : nat) (b : QueryResponseBlock) (f : string) (fname : PyObj) :
  (path = PathNone ∧ dir = download_dir env) ∨ path = PathStr dir ->
  existsb is_brace (list_ascii_of_string dir) = false ->
  (∀ s, py_str env (VScalar (SStr s)) = s) ->
  contains "/" f = false ->
  qres !! i = Some b ->
  full_filenames_step env qres path i f fname
  = Ok (PPartial (destination env (path_join dir f))).
Proof.
  intros Hpath Hdir Hstr Hf Hb.
  destruct (path_join_prefix dir) as (pre & Hjoin & Hpre).
  specialize (Hpre Hdir).
  assert (Htpl : format env (path_join dir "{file}")
                   (<["file" := VScalar (SStr f)]> (_map b))
                 = Ok (path_join dir f)).
  { rewrite (Hjoin "{file}") by reflexivity.
    rewrite (Hjoin f) by (by apply no_slash_no_prefix).
    by apply format_directory_template. }
  unfold full_filenames_step. rewrite Hb.
  destruct Hpath as [[-> ->]| ->].
  - change (Ok b ≫= ?g) with (g b). cbv beta. rewrite Htpl. reflexivity.
  - rewrite (contains_placeholder_brace _ Hdir). cbn [negb].
    change (Ok b ≫= ?g) with (g b). cbv beta. rewrite Htpl. reflexivity.
Qed.

Lemma full_filenames_directory (path : PathArg) (dir : string)
    (filenames : list string) :
  (path = PathNone ∧ dir = download_dir env) ∨ path = PathStr dir ->
  existsb is_brace (list_ascii_of_string dir) = false ->
  (∀ s, py_str env (VScalar (SStr s)) = s) ->
  Forall (fun f => contains "/" f = false) filenames ->
  (length filenames <= length qres)%nat ->
  _get_full_filenames env qres filenames path
  = Ok ((fun f => PPartial (destination env (path_join dir f))) <$> filenames).
Proof.
  intros Hpath Hdir Hstr Hnames Hlen. unfold _get_full_filenames.
  rewrite <- (app_nil_l (_ <$> filenames)).
  assert (Hi : (0 + length filenames <= length qres)%nat) by lia.
  revert Hi. clear Hlen. generalize (@nil PyObj) as acc.
  generalize Unbound as fname. generalize 0%nat as i.
  induction Hnames as [|f rest Hf Hrest IH]; intros i fname acc Hi.
  - simpl. by rewrite app_nil_r.
  - destruct (lookup_lt_is_Some_2 qres i) as [b Hb]; [simpl in Hi; lia|].
    cbn [full_filenames_loop].
    rewrite (full_filenames_step_directory path dir i b f fname
               Hpath Hdir Hstr Hf Hb).
    change (Ok ?x ≫= ?g) with (g x). cbv beta.
    rewrite IH by (simpl in Hi; lia).
    by rewrite fmap_cons, <- app_assoc.
Qed.

(** X14: with no [path], or with a directory as [path], and no brace in the
    directory name, every file goes to the directory: the i-th path is the
    join of the directory and the i-th file name, with the home directory
    expanded and renamed if a file of that name exists.  The fields of the
    blocks play no part, and two equal file names get the same path: the
    names given out in one call are not checked against each other. *)
Theorem get_full_filenames_directory (path : PathArg) (dir : string)
    (filenames : list string) :
  (path = PathNone ∧ dir = download_dir env) ∨ path = PathStr dir ->
  existsb is_brace (list_ascii_of_string dir) = false ->
  (∀ s, py_str env (VScalar (SStr s)) = s) ->
  Forall (fun f => contains "/" f = false) filenames ->
  (length filenames <= length qres)%nat ->
  _get_full_filenames env qres filenames path
  = Ok ((fun f => PPartial (destination env (path_join dir f))) <$> filenames).
Proof. apply full_filenames_directory. Qed.

(** X15: when the imported [replacement_filename] answers a name that is
    free, no path that [_get_full_filenames] hands out is the name of an
    existing file. *)
Theorem get_full_filenames_free (path : PathArg) (filenames : list string)
    (paths : list PyObj) :
  (∀ s, path_exists env s = true ->
        path_exists env (replacement_filename env s) = false) ->
  _get_full_filenames env qres filenames path = Ok paths ->
  ∀ s, PPartial s ∈ paths -> path_exists env s = false.
Proof.
  intros Hrep. unfold _get_full_filenames.
  assert (Hacc : ∀ s, PPartial s ∈ @nil PyObj -> path_exists env s = false)
    by (intros s Hs; by apply elem_of_nil in Hs).
  revert Hacc. generalize (@nil PyObj) as acc.
  generalize Unbound as fname. generalize 0%nat as i.
  induction filenames as [|f rest IH]; intros i fname acc Hacc H; simpl in H.
  - by injection H as <-.
  - destruct (full_filenames_step env qres path i f fname) as [p|e] eqn:Hstep;
      [|discriminate].
    simpl in H. eapply IH; [|exact H].
    intros s Hs. apply elem_of_app in Hs as [Hs|Hs]; [by apply Hacc|].
    apply list_elem_of_singleton in Hs as <-.
    unfold full_filenames_step in Hstep.
    destruct (qres !! i) as [b|]; [|discriminate]. simpl in Hstep.
    match type of Hstep with
    | (match ?x with _ => _ end ≫= _) = _ => destruct x as [| t |]
    end; try discriminate.
    destruct (format env t _) as [out|e]; [|discriminate].
    simpl in Hstep. injection Hstep as <-.
    destruct (path_exists env (expanduser env out)) eqn:Hex; [auto | done].
Qed.
End Destinations.

Lemma get_full_filenames_length_witness :
  _get_full_filenames sample_env [block_a; block_b] ["a.fits"; "b.fits"]
    (PathStr "/data/{source}")
  = Ok [PPartial "/data/sdo/a.fits"; PPartial "/data/sdo/b.fits"]
  ∧ length [PPartial "/data/sdo/a.fits"; PPartial "/data/sdo/b.fits"]
    = length ["a.fits"; "b.fits"]
  ∧ (length ["a.fits"; "b.fits"] <= length [block_a; block_b])%nat.
Proof.
  assert (H : _get_full_filenames sample_env [block_a; block_b]
                ["a.fits"; "b.fits"] (PathStr "/data/{source}")
              = Ok [PPartial "/data/sdo/a.fits"; PPartial "/data/sdo/b.fits"]).
  { vm_compute. reflexivity. }
  split; [exact H|].
  exact (get_full_filenames_length sample_env _ _ _ _ H).
Defined.

Lemma get_full_filenames_directory_witness :
  _get_full_filenames sample_env [block_a; block_b] ["a.fits"; "a.fits"]
    PathNone
  = Ok ((fun f => PPartial (destination sample_env
                              (path_join "/home/user/sunpy/data" f)))
        <$> ["a.fits"; "a.fits"]).
Proof.
  apply (get_full_filenames_directory sample_env [block_a; block_b] PathNone
           "/home/user/sunpy/data" ["a.fits"; "a.fits"]).
  - left. split; reflexivity.
  - reflexivity.
  - intros s. reflexivity.
  - repeat constructor.
  - simpl. lia.
Defined.

Lemma get_full_filenames_free_witness :
  _get_full_filenames busy_env [block_a] ["a.fits"] PathNone
  = Ok [PPartial "/data/a.fits.0"]
  ∧ PPartial "/data/a.fits.0" ∈ [PPartial "/data/a.fits.0"]
  ∧ path_exists busy_env "/data/a.fits.0" = false.
Proof.
  assert (Hrep : ∀ s, path_exists busy_env s = true ->
                      path_exists busy_env (replacement_filename busy_env s)
                      = false).
  { intros s Hs. apply String.eqb_eq in Hs as ->. reflexivity. }
  assert (H : _get_full_filenames busy_env [block_a] ["a.fits"] PathNone
              = Ok [PPartial "/data/a.fits.0"]).
  { vm_compute. reflexivity. }
  assert (Hin : PPartial "/data/a.fits.0" ∈ [PPartial "/data/a.fits.0"])
    by left.
  split; [exact H|]. split; [exact Hin|].
  exact (get_full_filenames_free busy_env _ _ _ _ Hrep H _ Hin).
Defined.

(** ** fetch: what is submitted *)

Lemma download_all_log {C : Type} (tasks : list (string * list string * PyObj))
    (error_callback : option C) :
  download_all tasks error_callback
  = ((fun '(aurl, ncall, fname) => Download aurl fname ncall error_callback)
     <$> tasks, Ok tt).
Proof.
  induction tasks as [|[[aurl ncall] fname] rest IH]; [reflexivity|].
  change (download_all ((aurl, ncall, fname) :: rest) error_callback)
    with (tell (Download aurl fname ncall error_callback) ≫= fun _ =>
          download_all rest error_callback).
  rewrite W_bind_unfold, IH. reflexivity.
Qed.

Lemma fetch_tasks_zip {C : Type} (qres : list QueryResponseBlock)
    (paths : list PyObj) (error_callback : option C) :
  (fun '(aurl, ncall, fname) => Download aurl fname ncall error_callback)
  <$> zip (zip (url <$> qres) ((fun x => [x]) <$> (url <$> qres))) paths
  = zip_with (fun b fname => Download (url b) fname [url b] error_callback)
      qres paths.
Proof.
  revert paths. induction qres as [|b qres IH]; intros [|p paths];
    try reflexivity.
  rewrite !fmap_cons. cbn [zip zip_with fmap list_fmap]. f_equal. apply IH.
Qed.

(** X16: a [fetch] that returns has built one downloader, with as many
    connections allowed as there are blocks, and has then submitted exactly
    one download per block, in the order of the response: the URL of the
    block, the path resolved for it, and the callback that registers the
    URL with the results object. *)
Theorem fetch_submits_each_block {C : Type} (env : Env)
    (qres : list QueryResponseBlock) (path : PathArg)
    (error_callback : option C) (log : list (Event C)) (res : Results) :
  fetch env qres path error_callback = (log, Ok res) ->
  exists path' paths,
    check_path env path = Ok path'
    ∧ _get_full_filenames env qres
        ((fun b => last_segment (url b) []) <$> qres) path' = Ok paths
    ∧ length paths = length qres
    ∧ log = NewDownloader (length qres) (length qres)
            :: zip_with (fun b fname =>
                           Download (url b) fname [url b] error_callback)
                 qres paths
    ∧ required res = (fun b => [url b]) <$> qres.
Proof.
  unfold fetch. rewrite W_bind_unfold. unfold liftW at 1.
  destruct (check_path env path) as [path'|e1]; [|discriminate].
  rewrite W_bind_unfold. unfold liftW at 1.
  rewrite <- list_fmap_compose.
  destruct (_get_full_filenames env qres _ path') as [paths|e2] eqn:Hpaths;
    [|discriminate].
  rewrite !W_bind_unfold, download_all_log, fetch_tasks_zip. unfold tell.
  cbn. rewrite app_nil_r, length_fmap, <- list_fmap_compose.
  intros [= <- <-]. exists path', paths. repeat split; try done.
  unfold _get_full_filenames in Hpaths.
  apply full_filenames_loop_length in Hpaths.
  by rewrite Hpaths, length_fmap.
Qed.

Lemma fetch_submits_each_block_witness :
  @fetch unit sample_env [block_a] (PathLib "data") None
  = ([NewDownloader 1 1;
      Download "http://example.org/data/a.fits"
        (PPartial "/home/user/data/a.fits")
        ["http://example.org/data/a.fits"] None],
     Ok {| required := [["http://example.org/data/a.fits"]] |})
  ∧ exists path' paths,
      check_path sample_env (PathLib "data") = Ok path'
      ∧ _get_full_filenames sample_env [block_a]
          ((fun b => last_segment (url b) []) <$> [block_a]) path' = Ok paths
      ∧ length paths = length [block_a]
      ∧ ([NewDownloader 1 1;
          Download "http://example.org/data/a.fits"
            (PPartial "/home/user/data/a.fits")
            ["http://example.org/data/a.fits"] None] : list (Event unit))
        = NewDownloader (length [block_a]) (length [block_a])
          :: zip_with (fun b fname => Download (url b) fname [url b] None)
               [block_a] paths
      ∧ required {| required := [["http://example.org/data/a.fits"]] |}
        = (fun b => [url b]) <$> [block_a].
Proof.
  assert (H : @fetch unit sample_env [block_a] (PathLib "data") None
              = ([NewDownloader 1 1;
                  Download "http://example.org/data/a.fits"
                    (PPartial "/home/user/data/a.fits")
                    ["http://example.org/data/a.fits"] None],
                 Ok {| required := [["http://example.org/data/a.fits"]] |})).
  { vm_compute. reflexivity. }
  split; [exact H|].
  exact (fetch_submits_each_block sample_env _ _ _ _ _ H).
Defined.

(** X17: with no [path], or with a directory ([str] or [pathlib.Path]) whose
    name holds no brace, [fetch] never raises: every block is downloaded to
    the directory, under the last segment of its URL, with the home
    directory expanded and a taken name replaced. *)
Theorem fetch_to_directory {C : Type} (env : Env)
    (qres : list QueryResponseBlock) (path : PathArg) (dir : string)
    (error_callback : option C) :
  (path = PathNone ∧ dir = download_dir env)
  ∨ path = PathStr dir
  ∨ (exists p, path = PathLib p ∧ dir = absolute env p) ->
  existsb is_brace (list_ascii_of_string dir) = false ->
  (∀ s, py_str env (VScalar (SStr s)) = s) ->
  fetch env qres path error_callback
  = (NewDownloader (length qres) (length qres)
     :: ((fun b =>
            Download (url b)
              (PPartial (destination env
                           (path_join dir (last_segment (url b) []))))
              [url b] error_callback) <$> qres),
     Ok {| required := (fun b => [url b]) <$> qres |}).
Proof.
  intros Hpath Hdir Hstr.
  assert (Hcheck : exists path',
    check_path env path = Ok path'
    ∧ ((path' = PathNone ∧ dir = download_dir env) ∨ path' = PathStr dir)).
  { destruct Hpath as [[-> ->]|[->|(p & -> & ->)]]; eexists;
      (split; [reflexivity|]); auto. }
  destruct Hcheck as (path' & Hcheck & Hpath').
  unfold fetch. rewrite W_bind_unfold, Hcheck. unfold liftW at 1.
  rewrite W_bind_unfold. unfold liftW at 1.
  rewrite (full_filenames_directory env qres path' dir _ Hpath' Hdir Hstr).
  - rewrite !W_bind_unfold, download_all_log, fetch_tasks_zip. unfold tell.
    cbn. rewrite app_nil_r, length_fmap, <- !list_fmap_compose.
    f_equal. f_equal. clear. induction qres as [|b rest IH]; [reflexivity|].
    rewrite !fmap_cons. cbn [zip_with]. by rewrite IH.
  - apply Forall_fmap, Forall_fmap, Forall_forall. intros b _. simpl.
    by apply last_segment_slash_free.
  - by rewrite !length_fmap.
Qed.

Lemma fetch_to_directory_witness :
  @fetch unit busy_env [block_a; block_b] PathNone None
  = (NewDownloader 2 2
     :: ((fun b =>
            Download (url b)
              (PPartial (destination busy_env
                           (path_join "/data" (last_segment (url b) []))))
              [url b] None) <$> [block_a; block_b]),
     Ok {| required := (fun b => [url b]) <$> [block_a; block_b] |}).
Proof.
  apply (@fetch_to_directory unit busy_env [block_a; block_b] PathNone "/data"
           None).
  - left. split; reflexivity.
  - reflexivity.
  - intros s. reflexivity.
Defined.

(** ** response_block_properties *)

Lemma public_name_Some (a' a : string) :
  public_name a' = Some a <-> a' = a ∧ String.prefix "_" a = false.
Proof.
  unfold public_name. split.
  - destruct (String.prefix "_" a') eqn:Hp; [discriminate|].
    intros [= <-]. done.
  - intros [-> ->]. reflexivity.
Qed.

Lemma public_name_None (a : string) :
  public_name a = None <-> String.prefix "_" a = true.
Proof. unfold public_name. by destruct (String.prefix "_" a). Qed.

Lemma elem_of_public_names (x : option string) (names : list string) :
  x ∈ public_names names <-> exists a, a ∈ names ∧ public_name a = x.
Proof.
  unfold public_names. rewrite elem_of_list_to_set, list_elem_of_fmap.
  naive_solver.
Qed.

Lemma elem_of_foldl_intersection (dir : QueryResponseBlock -> list string)
    (others : list QueryResponseBlock) (s0 : gset (option string))
    (x : option string) :
  x ∈ foldl (fun s resp => s ∩ public_names (dir resp)) s0 others
  <-> x ∈ s0 ∧ ∀ resp, resp ∈ others -> x ∈ public_names (dir resp).
Proof.
  revert s0. induction others as [|r others IH]; intros s0; simpl.
  - split; [|tauto]. intros H. split; [done|]. intros resp Hr.
    by apply elem_of_nil in Hr.
  - rewrite IH, elem_of_intersection. split.
    + intros [[H0 Hr] Hrest]. split; [done|]. intros resp Hin.
      apply elem_of_cons in Hin as [->|Hin]; auto.
    + intros [H0 Hall]. split; [split; [done|]|].
      * apply Hall. left.
      * intros resp Hin. apply Hall. by right.
Qed.

(** X18: on a response with at least one block, each block having some
    attribute whose name begins with an underscore (as every Python object
    has), [response_block_properties] returns exactly the names that do not
    begin with an underscore and are attributes of every block. *)
Theorem response_block_properties_common
    (dir : QueryResponseBlock -> list string)
    (self : list QueryResponseBlock) :
  self ≠ [] ->
  (∀ b, b ∈ self -> exists a, a ∈ dir b ∧ String.prefix "_" a = true) ->
  exists s,
    response_block_properties dir self = Ok s
    ∧ (None ∉ s)
    ∧ ∀ a, Some a ∈ s
           <-> String.prefix "_" a = false ∧ ∀ b, b ∈ self -> a ∈ dir b.
Proof.
  destruct self as [|b0 rest]; [done|]. intros _ Hpriv.
  unfold response_block_properties.
  set (s := foldl _ _ rest).
  assert (Hs : ∀ x, x ∈ s <-> ∀ b, b ∈ b0 :: rest -> x ∈ public_names (dir b)).
  { intros x. subst s. rewrite elem_of_foldl_intersection. split.
    - intros [H0 Hr] b Hb. apply elem_of_cons in Hb as [->|Hb]; auto.
    - intros H. split; [apply H; left|]. intros r Hr. apply H. by right. }
  assert (HNone : None ∈ s).
  { apply Hs. intros b Hb. destruct (Hpriv b Hb) as (a & Ha & Hp).
    apply elem_of_public_names. exists a. split; [done|].
    by apply public_name_None. }
  destruct (decide (None ∈ s)) as [_|Hn]; [|done].
  eexists. split; [reflexivity|]. split; [set_solver|].
  intros a. rewrite elem_of_difference, Hs. split.
  - intros [Hall _]. split.
    + specialize (Hall b0 (list_elem_of_here _ _)).
      apply elem_of_public_names in Hall as (a' & _ & Ha').
      by apply public_name_Some in Ha' as [_ ?].
    + intros b Hb. specialize (Hall b Hb).
      apply elem_of_public_names in Hall as (a' & Hin & Ha').
      by apply public_name_Some in Ha' as [-> _].
  - intros [Hp Hall]. split; [|set_solver].
    intros b Hb. apply elem_of_public_names. exists a. split; [auto|].
    by apply public_name_Some.
Qed.

Lemma response_block_properties_common_witness :
  exists s,
    response_block_properties
      (fun _ => ["__class__"; "_map"; "source"; "url"; "time"])
      [block_a; block_c] = Ok s
    ∧ (None ∉ s)
    ∧ ∀ a, Some a ∈ s
           <-> String.prefix "_" a = false
               ∧ ∀ b, b ∈ [block_a; block_c] ->
                      a ∈ ["__class__"; "_map"; "source"; "url"; "time"].
Proof.
  apply (response_block_properties_common
           (fun _ => ["__class__"; "_map"; "source"; "url"; "time"])
           [block_a; block_c]).
  - discriminate.
  - intros b _. exists "_map". split; [|reflexivity]. right; left.
Defined.

(** X19: [response_block_properties] raises [IndexError] on the empty
    response, and the [KeyError] of [s.remove(None)] when some block has no
    attribute whose name begins with an underscore. *)
Theorem response_block_properties_errors
    (dir : QueryResponseBlock -> list string) :
  response_block_properties dir [] = Raise (IndexError "list index out of range")
  ∧ ∀ self b,
      b ∈ self ->
      (∀ a, a ∈ dir b -> String.prefix "_" a = false) ->
      response_block_properties dir self = Raise (KeyError "None").
Proof.
  split; [reflexivity|]. intros self b Hb Hpub.
  destruct self as [|b0 rest]; [by apply elem_of_nil in Hb|].
  unfold response_block_properties.
  set (s := foldl _ _ rest).
  destruct (decide (None ∈ s)) as [HNone|_]; [|reflexivity].
  exfalso. subst s. apply elem_of_foldl_intersection in HNone as [H0 Hr].
  assert (Hin : None ∈ public_names (dir b))
    by (apply elem_of_cons in Hb as [->|Hb]; auto).
  apply elem_of_public_names in Hin as (a & Ha & Hnone).
  apply public_name_None in Hnone. rewrite (Hpub a Ha) in Hnone. discriminate.
Qed.

(** ** _link *)

Lemma getitem_NoDup {V : Type} (d : list (string * V)) (k : string) (v : V) :
  NoDup d.*1 -> (k, v) ∈ d -> getitem k d = Some v.
Proof.
  induction d as [|[k' v'] d IH]; intros Hnd Hin;
    [by apply elem_of_nil in Hin|].
  simpl in Hnd. apply NoDup_cons in Hnd as [Hk' Hnd]. simpl.
  apply elem_of_cons in Hin as [[= -> ->]|Hin].
  - by destruct (decide (k' = k')).
  - destruct (decide (k' = k)) as [->|_]; [|auto].
    exfalso. apply Hk'. apply list_elem_of_fmap. by exists (k, v).
Qed.

Lemma link_loop_paths (map_ items : list (string * gmap string string))
    (acc : list string) :
  (∀ k v, (k, v) ∈ items -> getitem k map_ = Some v) ->
  (Forall (fun kv => is_Some (kv.2 !! "path")) items ->
   exists paths, link_loop map_ items acc = Ok (acc ++ paths)
                 ∧ Forall2 (fun kv p => kv.2 !! "path" = Some p) items paths)
  ∧ (Exists (fun kv => kv.2 !! "path" = None) items ->
     link_loop map_ items acc = Raise (KeyError "path")).
Proof.
  revert acc. induction items as [|[k v] rest IH]; intros acc Hget.
  - split.
    + intros _. exists []. split; [by rewrite app_nil_r | constructor].
    + intros H. by apply Exists_nil in H.
  - assert (Hk : getitem k map_ = Some v) by (apply Hget; left).
    assert (Hrest : ∀ k' v', (k', v') ∈ rest -> getitem k' map_ = Some v')
      by (intros k' v' Hin; apply Hget; by right).
    cbn [link_loop]. rewrite Hk. change (Ok v ≫= ?g) with (g v). cbv beta.
    destruct (v !! "path") as [p|] eqn:Hp.
    + change (Ok p ≫= ?g) with (g p). cbv beta.
      destruct (IH (acc ++ [p]) Hrest) as [IHok IHerr]. split.
      * intros Hall. apply Forall_cons in Hall as [_ Hall].
        destruct (IHok Hall) as (paths & Hl & Hf2).
        exists (p :: paths). split; [by rewrite Hl, <- app_assoc|].
        by constructor.
      * intros Hex. apply Exists_cons in Hex as [Hex|Hex]; [|auto].
        simpl in Hex. congruence.
    + split; [|reflexivity].
      intros Hall. apply Forall_cons in Hall as [[p' Hp'] _].
      simpl in Hp'. congruence.
Qed.

(** X20: for a dictionary (items in insertion order, keys all different),
    [_link] returns the [path] entry of every value, in the order of the
    dictionary, and raises [KeyError] as soon as a value has no [path]: the
    look-up [map_[k]] inside the loop always finds the value at hand. *)
Theorem link_paths (map_ : list (string * gmap string string)) :
  NoDup map_.*1 ->
  (Forall (fun kv => is_Some (kv.2 !! "path")) map_ ->
   exists paths, _link map_ = Ok paths
                 ∧ Forall2 (fun kv p => kv.2 !! "path" = Some p) map_ paths)
  ∧ (Exists (fun kv => kv.2 !! "path" = None) map_ ->
     _link map_ = Raise (KeyError "path")).
Proof.
  intros Hnd. unfold _link.
  apply (link_loop_paths map_ map_ []).
  intros k v Hin. by apply getitem_NoDup.
Qed.

Lemma link_paths_witness :
  (Forall (fun kv => is_Some (kv.2 !! "path")) sample_results ->
   exists paths, _link sample_results = Ok paths
                 ∧ Forall2 (fun kv p => kv.2 !! "path" = Some p)
                     sample_results paths)
  ∧ (Exists (fun kv => kv.2 !! "path" = None) sample_results ->
     _link sample_results = Raise (KeyError "path")).
Proof.
  apply (link_paths sample_results).
  unfold sample_results. simpl.
  apply NoDup_cons. split; [|apply NoDup_singleton].
  intros H. apply list_elem_of_singleton in H. discriminate.
Defined.

Example link_sample :
  _link sample_results = Ok ["/data/a.fits"; "/data/b.fits"].
Proof. vm_compute. reflexivity. Qed.

(** ** fetch: failing fast *)

(** X21: whatever makes [fetch] raise (the type of [path], a template that
    cannot be filled in for some block), it raises before the downloader is
    built: no download of any block has been submitted. *)
Theorem fetch_fails_fast {C : Type} (env : Env)
    (qres : list QueryResponseBlock) (path : PathArg)
    (error_callback : option C) (log : list (Event C)) (e : Exc) :
  fetch env qres path error_callback = (log, Raise e) -> log = [].
Proof. apply fetch_raise_no_event. Qed.

Lemma fetch_fails_fast_witness :
  @fetch unit sample_env [block_a; block_b] (PathStr "/data/{instrument}") None
  = ([], Raise (KeyError "instrument"))
  ∧ ([] : list (Event unit)) = [].
Proof.
  assert (H : @fetch unit sample_env [block_a; block_b]
                (PathStr "/data/{instrument}") None
              = ([], Raise (KeyError "instrument"))).
  { vm_compute. reflexivity. }
  split; [exact H|].
  exact (fetch_fails_fast sample_env _ _ _ _ _ H).
Defined.
